(** * romlib.binary: a shallow embedding and its verified properties

    The development follows [romlib/binary.py]: the address converter
    ([Address]), structure definitions ([StructDef]), structure instances
    ([Struct]), array definitions ([ArrayDef]) and the map orchestrator
    ([RomMap]).  Python integers are unbounded, so they are modelled by [Z];
    [%] is Python's floor remainder ([Z.modulo] for a positive divisor) and
    [|] is bitwise or on two's complement integers ([Z.lor]).  Python
    exceptions are values of [exn], carried by the [result] monad. *)

From Stdlib Require Import ZArith QArith Lia Ascii String.
From stdpp Require Import base option list strings gmap pretty.

Local Open Scope string_scope.
Local Open Scope list_scope.
Local Open Scope Z_scope.

(** ** Exceptions and the result monad *)

(** The exceptions that the modelled code can raise.  [ValueError] carries
    the optional [overlap] attribute that [RomMap.dump] reads from the
    exception raised by [merge_dicts]. *)
Inductive exn : Type :=
| NameError (name : string)
| AttributeError (attr : string)
| TypeError (msg : string)
| IndexError
| KeyError (key : string)
| StopIteration
| ValueError (overlap : option (list string))
| RomMapError (entity : string) (overlap : list string)
| FileExistsError (fname : string)
| InterpretError
| CreationError
| ReadError.

Inductive result (A : Type) : Type :=
| Ok (a : A)
| Raise (e : exn).

Arguments Ok {A} a.
Arguments Raise {A} e.

Definition bind {A B : Type} (r : result A) (k : A -> result B) : result B :=
  match r with
  | Ok a => k a
  | Raise e => Raise e
  end.

Notation "x <- r ;; k" := (bind r (fun x => k))
  (at level 100, r at next level, right associativity).

(** A list comprehension whose body can raise: elements are evaluated from
    left to right and the first exception aborts the comprehension. *)
Fixpoint mapR {A B : Type} (f : A -> result B) (l : list A) : result (list B) :=
  match l with
  | [] => Ok []
  | x :: l' => y <- f x ;; ys <- mapR f l' ;; Ok (y :: ys)
  end.

(** [[x for x in l if p(x)]] with a test that can raise. *)
Fixpoint filterR {A : Type} (p : A -> result bool) (l : list A) : result (list A) :=
  match l with
  | [] => Ok []
  | x :: l' =>
      b <- p x ;; ys <- filterR p l' ;; Ok (if b : bool then x :: ys else ys)
  end.

(** ** Address (binary.py, lines 20-54) *)

Module Address.

Record t : Type := mk { _address : Z }.

Definition _from_offset (offset : Z) : Z := offset.

Definition _from_hirom (offset : Z) : Z := offset mod 0x400000.

(** [Address(offset, schema)]: the converter is looked up by name,
    [getattr(self, "_from_" + schema)]; the class defines [_from_offset] and
    [_from_hirom], any other schema is an [AttributeError]. *)
Definition init (offset : Z) (schema : string) : result t :=
  if String.eqb schema "offset" then Ok (mk (_from_offset offset))
  else if String.eqb schema "hirom" then Ok (mk (_from_hirom offset))
  else Raise (AttributeError ("_from_" +:+ schema)).

Definition rom (a : t) : Z := _address a.

(** The property has [mirror=0xC00000] as its only, defaulted, argument. *)
Definition hirom (a : t) : Z := Z.lor (_address a) 0xC00000.

End Address.

(** The pointer -> offset -> pointer conversion: build an address from a
    hirom pointer and read it back as a hirom pointer. *)
Definition recanonicalize (M : Z) : result Z :=
  a <- Address.init M "hirom" ;; Ok (Address.hirom a).

(** ** Character classes of [str]

    A string is the sequence of its characters, one [ascii] per character
    (code points below 256). *)

(** [c.isalnum()] for one character: the ASCII digits and letters, and the
    Latin-1 letters and numeric characters. *)
Definition isalnum_char (c : ascii) : bool :=
  let n := N_of_ascii c in
  ((48 <=? n) && (n <=? 57)              (* 0-9 *)
   || (65 <=? n) && (n <=? 90)           (* A-Z *)
   || (97 <=? n) && (n <=? 122)          (* a-z *)
   || (n =? 170) || (n =? 178) || (n =? 179) || (n =? 181)
   || (n =? 185) || (n =? 186)
   || (188 <=? n) && (n <=? 190)
   || (192 <=? n) && (n <=? 214)
   || (216 <=? n) && (n <=? 246)
   || (248 <=? n))%N.

Fixpoint all_chars (p : ascii -> bool) (s : string) : bool :=
  match s with
  | EmptyString => true
  | String c s' => p c && all_chars p s'
  end.

(** [s.isalnum()]: every character is alphanumeric and there is at least
    one character. *)
Definition isalnum (s : string) : bool :=
  match s with
  | EmptyString => false
  | String _ _ => all_chars isalnum_char s
  end.

(** [needle in hay] on strings. *)
Fixpoint contains (needle hay : string) : bool :=
  String.prefix needle hay
  || match hay with
     | EmptyString => false
     | String _ hay' => contains needle hay'
     end.

(** [sep.join(parts)]. *)
Fixpoint join (sep : string) (parts : list string) : string :=
  match parts with
  | [] => ""
  | [p] => p
  | p :: rest => p +:+ sep +:+ join sep rest
  end.

(** ** Field descriptors and structure definitions (lines 292-357) *)

(** One row of a structure's csv file as [StructDef.__init__] receives it
    from [OrderedDictReader]: every column is text, the size included. *)
Record FieldRow : Type := mkFieldRow {
  rid : string;
  rlabel : string;
  rtype : string;
  rsize : string;
  rdisplay : string;
  rtags : string;
  rcomment : string;
  rorder : string
}.

(** A field descriptor of a structure definition.  [fsize] is the size in
    bits, that is, the value that line 305 stores back into the descriptor
    with [f['size'] = tobits(f['size'])]. *)
Record Field : Type := mkField {
  fid : string;
  flabel : string;
  ftype : string;
  fsize : Z;
  fdisplay : string;
  ftags : string;
  fcomment : string;
  forder : string
}.

Definition field (id label type : string) (size : Z) : Field :=
  mkField id label type size "" "" "" "".

Record StructDef : Type := mkStructDef {
  pointers : list Field;
  fields : list Field
}.

(** [StructDef.isdata]: [field['id'].isalnum()].  The constructor applies
    it, and [ispointer], to the rows as they were read. *)
Definition isdata (f : FieldRow) : bool := isalnum (rid f).

(** [StructDef.ispointer]: [field['id'][0] == "*"]; indexing the empty
    string raises [IndexError]. *)
Definition ispointer (f : FieldRow) : result bool :=
  match rid f with
  | EmptyString => Raise IndexError
  | String c _ => Ok (Ascii.eqb c "*")
  end.

(** [StructDef.isname]: [field['label'] == "Name"]. *)
Definition isname (f : Field) : bool := String.eqb (flabel f) "Name".

(** [tobits] belongs to [romlib.util], which is not among the sources: it
    turns the text of a size into a number of bits, or raises. *)
Class Util : Type := {
  tobits : string -> result Z
}.

(** The row [f] with its size replaced by [size] (line 305). *)
Definition sized (f : FieldRow) (size : Z) : Field :=
  mkField (rid f) (rlabel f) (rtype f) size
          (rdisplay f) (rtags f) (rcomment f) (rorder f).

(** [namedtuple(typename, field_names)], lines 309 and 310.  The module
    imports [OrderedDict] from [collections] and nothing else (line 10), so
    the name [namedtuple] is unbound and its evaluation raises [NameError]:
    the call has no value. *)
Definition namedtuple (typename field_names : string) : result Empty_set :=
  Raise (NameError "namedtuple").

(** [StructDef.__init__] (lines 300-310): the pointer list is built first,
    then the storage list; the size of each storage row is converted, in
    order; then line 309 asks for the first of the two record classes and
    raises, so that line 310 and the end of the constructor are never
    reached. *)
Definition StructDef_init `{Util} (name : string) (fields : list FieldRow)
    : result StructDef :=
  pointers <- filterR ispointer fields ;;
  let data := List.filter isdata fields in
  fields' <- mapR (fun f => size <- tobits (rsize f) ;; Ok (sized f size)) data ;;
  let fids := map fid fields' in
  let pids := map rid pointers in
  _datant <- namedtuple name (join "," fids) ;;
  match _datant : Empty_set with end.

(** [next(it)] without a default on an iterator over [l]. *)
Definition next {A : Type} (l : list A) : result A :=
  match l with
  | [] => Raise StopIteration
  | x :: _ => Ok x
  end.

Definition id_label (f : Field) : string * string := (fid f, flabel f).

Definition notname (f : Field) : bool := negb (isname f).

(** [StructDef._output_fields] (lines 329-335). *)
Definition _output_fields (s : StructDef) : result (list (string * string)) :=
  let allfields := fields s ++ pointers s in
  name <- next (List.filter isname allfields) ;;
  let normal := List.filter notname (fields s) in
  let pointers := List.filter notname (pointers s) in
  Ok (map id_label (name :: normal ++ pointers)).

(** The order as the specification words it: the first field labelled
    "Name" in [l] is taken out, everything else stays. *)
Fixpoint remove_first_name (l : list Field) : list Field :=
  match l with
  | [] => []
  | f :: l' => if isname f then l' else f :: remove_first_name l'
  end.

(** Specification-side definition of [outputOrder()]: the first field
    labelled "Name", if any, then all remaining storage fields, then all
    remaining pointer fields. *)
Definition spec_outputOrder (s : StructDef) : list (string * string) :=
  let allfields := fields s ++ pointers s in
  match List.filter isname allfields with
  | [] => map id_label allfields
  | name :: _ => map id_label (name :: remove_first_name allfields)
  end.

(** [StructDef.bits] (line 357): [sum] adds from the left, starting at 0. *)
Definition bits (s : StructDef) : Z :=
  fold_left (fun acc f => acc + fsize f) (fields s) 0.

(** The schemas on which the float arithmetic of line 352 is exact: no
    size is negative and the sizes add up to less than 2^53 bits.  Every
    quotient [size / 8] and every partial sum is then a multiple of 1/8
    below 2^50, which a binary64 float holds without rounding. *)
Definition exact_range (s : StructDef) : bool :=
  forallb (fun f => 0 <=? fsize f) (fields s) && (bits s <? 2 ^ 53).

(** [StructDef.bytes] (line 352): [sum(f['size'] / 8 ...)].  In Python 3
    [/] is true division, so the result is a float.  On the schemas of
    [exact_range] the float is the rational computed here; outside it the
    quotients or the sums are rounded, and this development does not give
    the float a value ([None]). *)
Definition bytes (s : StructDef) : option Q :=
  if exact_range s
  then Some (fold_left (fun acc f => (acc + (inject_Z (fsize f) / 8))%Q)
                       (fields s) 0%Q)
  else None.

(** [ceil(n / 8)] on integers. *)
Definition ceil8 (n : Z) : Z := (n + 7) / 8.

(** The pointer test on an id that is known to have a first character. *)
Definition starts_with_star (f : FieldRow) : bool :=
  match rid f with
  | EmptyString => false
  | String c _ => Ascii.eqb c "*"
  end.

Definition nonempty_id (f : FieldRow) : Prop := rid f <> "".

(** Sum of a list of integers, from the right. *)
Definition sumZ (l : list Z) : Z := fold_right Z.add 0 l.

(** ** Values, and what the module takes from elsewhere *)

(** A value held by a record or read from a csv cell. *)
Inductive value : Type :=
| VInt (n : Z)
| VStr (s : string).

(** [str(v)], as ["{}".format(v)] renders it. *)
Definition str (v : value) : string :=
  match v with
  | VInt n => pretty n
  | VStr s => s
  end.

(** [StructDef] is used through the mapping protocol of a dictionary of
    field descriptors: [self[fid]] in [changeset] and [s.values()] in
    [RomMap.dump].  They are the members of a class, so that the functions
    below read as the source does and the properties that do not depend on
    the answers hold for any object in the place of the definition. *)
Class MappingProtocol : Type := {
  getitem : StructDef -> string -> result Field;
  values : StructDef -> result (list Field)
}.

(** The mapping protocol of the class as its body stands (lines 292-371):
    it derives from [object] and defines neither [__getitem__] nor
    [values], so an instance is not subscriptable and has no [values]
    attribute. *)
Definition no_mapping : MappingProtocol :=
  {| getitem := fun _ _ => Raise (TypeError "'StructDef' object is not subscriptable");
     values := fun _ => Raise (AttributeError "values") |}.

(** The library functions that pack values: the builtin [int(value, 0)] and
    the constructor [bitstring.Bits(auto)] applied to an initialiser
    string, which yields a sequence of bits, most significant first. *)
Class Packing : Type := {
  int0 : value -> result Z;
  Bits : string -> result (list bool)
}.

(** The integer denoted by a run of bits, most significant bit first. *)
Definition uint_of_bits (bs : list bool) : Z :=
  fold_left (fun acc (b : bool) => 2 * acc + (if b then 1 else 0)) bs 0.

Fixpoint bytes_of_bits (n : nat) (bs : list bool) : list Z :=
  match n with
  | O => []
  | S n' => uint_of_bits (take 8 bs) :: bytes_of_bits n' (drop 8 bs)
  end.

(** [Bits.bytes]: the bytes of a bitstring whose length is a whole number
    of bytes; bitstring raises [InterpretError] otherwise. *)
Definition Bits_bytes (bs : list bool) : result (list Z) :=
  if (length bs mod 8 =? 0)%nat
  then Ok (bytes_of_bits (length bs / 8) bs)
  else Raise InterpretError.

(** [enumerate(l)], counting from [i]. *)
Fixpoint enumerate_from {A : Type} (i : Z) (l : list A) : list (Z * A) :=
  match l with
  | [] => []
  | x :: l' => (i, x) :: enumerate_from (i + 1) l'
  end.

(** A dictionary built from its items in order: a later item replaces an
    earlier one with the same key. *)
Definition dict_of (items : list (Z * Z)) : gmap Z Z :=
  fold_left (fun m kv => <[kv.1 := kv.2]> m) items ∅.

(** ** StructDef.changeset (lines 359-371) *)

(** The body of the loop: one initialiser string per item of [item].  The
    two lookups [self[fid]['size']] and [self[fid]['type']] are one call of
    [getitem] here. *)
Definition initializer `{MappingProtocol} `{Packing}
    (self : StructDef) (kv : string * value) : result string :=
  let '(fid, value) := kv in
  f <- getitem self fid ;;
  let size := fsize f in
  let ftype := ftype f in
  value <- (if contains "int" ftype
            then n <- int0 value ;; Ok (VInt n)
            else Ok value) ;;
  Ok (ftype +:+ ":" +:+ pretty size +:+ "=" +:+ str value).

Definition changeset `{MappingProtocol} `{Packing}
    (self : StructDef) (item : list (string * value)) (offset : Z)
    : result (gmap Z Z) :=
  initializers <- mapR (initializer self) item ;;
  itemdata <- Bits (join ", " initializers) ;;
  bs <- Bits_bytes itemdata ;;
  Ok (dict_of (map (fun ib => (offset + ib.1, ib.2)) (enumerate_from 0 bs))).

(** ** Reference instances

    Concrete instances of the two interfaces, used to run examples of the
    properties that hold for every instance.  [by_id] is an object that
    answers [self[fid]] with the storage field of that id and [s.values()]
    with the storage fields, in the place of the definition.
    [plain_packing] covers the fragment of the library functions that the
    examples need: integer literals without blanks and underscores, and
    initialiser strings made of [uint:n=v] tokens. *)

Definition lookup_field (s : StructDef) (key : string) : result Field :=
  match List.find (fun f => String.eqb (fid f) key) (fields s) with
  | Some f => Ok f
  | None => Raise (KeyError key)
  end.

Definition by_id : MappingProtocol :=
  {| getitem := lookup_field; values := fun s => Ok (fields s) |}.

Definition digit_of (c : ascii) : option Z :=
  let n := N_of_ascii c in
  if ((48 <=? n) && (n <=? 57))%N then Some (Z.of_N (n - 48))
  else if ((97 <=? n) && (n <=? 102))%N then Some (Z.of_N (n - 87))
  else if ((65 <=? n) && (n <=? 70))%N then Some (Z.of_N (n - 55))
  else None.

Fixpoint digits_go (base : Z) (s : string) (acc : Z) : option Z :=
  match s with
  | EmptyString => Some acc
  | String c s' =>
      match digit_of c with
      | Some d => if d <? base then digits_go base s' (base * acc + d) else None
      | None => None
      end
  end.

Definition digits (base : Z) (s : string) : option Z :=
  match s with
  | EmptyString => None
  | String _ _ => digits_go base s 0
  end.

(** An unsigned literal as [int(s, 0)] reads it: a [0x], [0o] or [0b]
    prefix selects the base; a decimal literal has no leading zero unless
    it is zero. *)
Definition unsigned_literal (s : string) : option Z :=
  match s with
  | String "0" (String c rest) =>
      if (Ascii.eqb c "x" || Ascii.eqb c "X")%bool then digits 16 rest
      else if (Ascii.eqb c "o" || Ascii.eqb c "O")%bool then digits 8 rest
      else if (Ascii.eqb c "b" || Ascii.eqb c "B")%bool then digits 2 rest
      else match digits 10 s with
           | Some 0 => Some 0
           | _ => None
           end
  | _ => digits 10 s
  end.

Definition int_literal (v : value) : result Z :=
  match v with
  | VInt _ => Raise (TypeError "int() can't convert non-string with explicit base")
  | VStr s =>
      let r := match s with
               | String "-" s' => Z.opp <$> unsigned_literal s'
               | String "+" s' => unsigned_literal s'
               | _ => unsigned_literal s
               end in
      match r with
      | Some n => Ok n
      | None => Raise (ValueError None)
      end
  end.

(** Split at every [sep]; [cur] holds the current piece, reversed. *)
Fixpoint split_on (sep : ascii) (s : string) (cur : string) : list string :=
  match s with
  | EmptyString => [String.rev cur]
  | String c s' =>
      if Ascii.eqb c sep then String.rev cur :: split_on sep s' ""
      else split_on sep s' (String c cur)
  end.

Fixpoint lstrip (s : string) : string :=
  match s with
  | String " " s' => lstrip s'
  | _ => s
  end.

(** The [w] low bits of [v], most significant first. *)
Definition bits_of_uint (w : nat) (v : Z) : list bool :=
  map (fun i => Z.testbit v (Z.of_nat i)) (rev (seq 0 w)).

(** One token [uint:w=v]: [w] bits holding [v], which must fit. *)
Definition uint_token (tok : string) : result (list bool) :=
  match split_on ":" (lstrip tok) "" with
  | ["uint"; rest] =>
      match split_on "=" rest "" with
      | [ws; vs] =>
          match digits 10 ws, digits 10 vs with
          | Some w, Some v =>
              if (0 <? w) && (v <? 2 ^ w) then Ok (bits_of_uint (Z.to_nat w) v)
              else Raise CreationError
          | _, _ => Raise CreationError
          end
      | _ => Raise CreationError
      end
  | _ => Raise CreationError
  end.

Definition uint_bits (init : string) : result (list bool) :=
  match init with
  | EmptyString => Ok []
  | String _ _ =>
      parts <- mapR uint_token (split_on "," init "") ;; Ok (concat parts)
  end.

Definition plain_packing : Packing :=
  {| int0 := int_literal; Bits := uint_bits |}.

(** The structure of the specification's example: [id] of 8 bits and [hp]
    of 16 bits. *)
Definition monster : StructDef :=
  mkStructDef [] [field "id" "ID" "uint" 8; field "hp" "HP" "uint" 16].

(** ** Struct (lines 209-276) *)

(** A structure instance: its definition, the [data] record of the storage
    fields and the [calculated] record of the pointer fields, both as
    attribute name / value pairs. *)
Record Struct : Type := mkStruct {
  definition : StructDef;
  data : list (string * value);
  calculated : list (string * value)
}.

(** [getattr(record, name)]. *)
Fixpoint getattr (record : list (string * value)) (name : string) : result value :=
  match record with
  | [] => Raise (AttributeError name)
  | (k, v) :: record' => if String.eqb k name then Ok v else getattr record' name
  end.

(** What [Struct.read] asks of its bitstream: [stream.seek(offset)] and
    [stream.read(fmt)], which return the stream with its new position, and
    the expression [self.definition._datant(bitstream.readlist(fmt))] of
    line 244, whose names [bitstream] and [_datant] the module does not
    bind. *)
Class StreamOps (Stream : Type) : Type := {
  seek : Stream -> Z -> result Stream;
  stream_read : Stream -> string -> result (value * Stream);
  datant_readlist : StructDef -> list string -> Stream
                    -> result (list (string * value) * Stream)
}.

(** The builtin [setattr] takes three arguments; line 247 passes two. *)
Definition setattr2 (record : list (string * value)) (v : value)
    : result (list (string * value)) :=
  Raise (TypeError "setattr expected 3 arguments, got 2").

Definition fmt_of (f : Field) : string := ftype f +:+ ":" +:+ pretty (fsize f).

(** The loop of lines 245-247. *)
Fixpoint read_fields {Stream : Type} `{StreamOps Stream}
    (fs : list Field) (record : list (string * value)) (stream : Stream)
    : result (list (string * value) * Stream) :=
  match fs with
  | [] => Ok (record, stream)
  | f :: fs' =>
      vs <- stream_read stream (fmt_of f) ;;
      record' <- setattr2 record vs.1 ;;
      read_fields fs' record' vs.2
  end.

(** [Struct.read]: the method has no [return], so what it yields is the
    updated instance and stream. *)
Definition Struct_read {Stream : Type} `{StreamOps Stream}
    (self : Struct) (stream : Stream) (offset : option Z)
    : result (Struct * Stream) :=
  stream <- match offset with
            | Some o => seek stream o
            | None => Ok stream
            end ;;
  let fmt := map fmt_of (fields (definition self)) in
  ds <- datant_readlist (definition self) fmt stream ;;
  rs <- read_fields (fields (definition self)) ds.1 ds.2 ;;
  Ok (mkStruct (definition self) rs.1 (calculated self), rs.2).

(** [Struct.to_bytes]. *)
Definition to_bytes `{Packing} (self : Struct) : result (list Z) :=
  bitinit <- mapR (fun f =>
                     value <- getattr (data self) (fid f) ;;
                     Ok (ftype f +:+ ":" +:+ pretty (fsize f) +:+ "="
                         +:+ str value))
                  (fields (definition self)) ;;
  b <- Bits (join ", " bitinit) ;;
  Bits_bytes b.

(** A constant bitstream ([bitstring.ConstBitStream]): its bits and the
    read position.  The class has no [seek] method (the position is set
    through its [pos] property), so [stream.seek(offset)] is an
    [AttributeError]; [read] covers the [uint:n] format; [bitstream] is left
    unbound, as in the module. *)
Definition const_seek (st : list bool * nat) (o : Z) : result (list bool * nat) :=
  Raise (AttributeError "seek").

Definition const_read (st : list bool * nat) (fmt : string)
    : result (value * (list bool * nat)) :=
  match split_on ":" fmt "" with
  | ["uint"; ws] =>
      match digits 10 ws with
      | Some w =>
          let n := Z.to_nat w in
          if (st.2 + n <=? length st.1)%nat
          then Ok (VInt (uint_of_bits (take n (drop st.2 st.1))), (st.1, (st.2 + n)%nat))
          else Raise ReadError
      | None => Raise (ValueError None)
      end
  | _ => Raise (ValueError None)
  end.

Definition const_stream : StreamOps (list bool * nat) :=
  {| seek := const_seek;
     stream_read := const_read;
     datant_readlist := fun _ _ _ => Raise (NameError "bitstream") |}.

Definition monster_5_200 : Struct :=
  mkStruct monster [("id", VInt 5); ("hp", VInt 200)] [].

(** ** ArrayDef (lines 186-206) *)

(** An array definition after [ArrayDef.__init__]: [aoffset] and [astride]
    are in bits, [alength] is the value of [int(self['length'])], and
    [astruct] is the structure definition of the elements. *)
Record ArrayDef : Type := mkArrayDef {
  aname : string;
  aset : string;
  aoffset : Z;
  alength : Z;
  astride : Z;
  astruct : StructDef
}.

(** A record of one element as a dictionary from field id to value; the
    keys of a row are distinct. *)
Definition Row : Type := list (string * value).

(** What [ArrayDef.read] and [RomMap.dump] call on the object that an array
    holds as its [struct] and on the items it returns:
    [self.struct.read(stream, pos)] and
    [item.struct_def.dereference_pointers(item, self, rom)].  [Store] is the
    state they read from (the bitstream and the ROM file with their
    positions); it does not include the output folder. *)
Class ArrayReader (Item Store : Type) : Type := {
  struct_read : StructDef -> Z -> Store -> result (Item * Store);
  dereference_pointers : Item -> Store -> result (Row * Store)
}.

Section Reading.
Context {Item Store : Type} `{ArrayReader Item Store}.

(** [ArrayDef.read] consumed by the comprehension of lines 113-114: element
    [i] is read at [i * stride + offset] and dereferenced before element
    [i + 1] is read. *)
Fixpoint read_items (a : ArrayDef) (idxs : list Z) (st : Store)
    : result (list Row * Store) :=
  match idxs with
  | [] => Ok ([], st)
  | i :: idxs' =>
      let pos := i * astride a + aoffset a in
      item <- struct_read (astruct a) pos st ;;
      row <- dereference_pointers item.1 item.2 ;;
      rest <- read_items a idxs' row.2 ;;
      Ok (row.1 :: rest.1, rest.2)
  end.

Definition ArrayDef_read (a : ArrayDef) (st : Store) : result (list Row * Store) :=
  read_items a (seqZ 0 (alength a)) st.

(** Lines 112-114 for all the arrays of a set, in order. *)
Fixpoint read_set (arrays : list ArrayDef) (st : Store)
    : result (list (list Row) * Store) :=
  match arrays with
  | [] => Ok ([], st)
  | a :: arrays' =>
      rows <- ArrayDef_read a st ;;
      rest <- read_set arrays' rows.2 ;;
      Ok (rows.1 :: rest.1, rest.2)
  end.

End Reading.

(** ** Merging the arrays of a set (lines 115-120) *)

(** [zip] applied to the lists of [data]: the tuples of elements with the same index, as many as
    the shortest list has; no tuple when there is no list. *)
Fixpoint zip_star {A : Type} (data : list (list A)) : list (list A) :=
  match data with
  | [] => []
  | [l] => map (fun x => [x]) l
  | l :: ls => zip_with cons l (zip_star ls)
  end.

Definition has_key (k : string) (row : Row) : bool :=
  existsb (String.eqb k) (map fst row).

(** The number of dictionaries of [parts] that have the key [k]. *)
Definition holders (k : string) (parts : list Row) : nat :=
  length (List.filter (has_key k) parts).

Fixpoint dedup (l : list string) : list string :=
  match l with
  | [] => []
  | k :: l' => k :: List.filter (fun k' => negb (String.eqb k k')) (dedup l')
  end.

(** The keys that more than one dictionary of [parts] has. *)
Definition overlap_of (parts : list Row) : list string :=
  dedup (List.filter (fun k => (2 <=? holders k parts)%nat)
                     (concat (map (map fst) parts))).

(** Modelled from the spec: [merge_dicts] of [romlib.util], which is not
    among the sources.  Section 4.5: the rows of the member arrays are
    merged "using union of fields (not concatenation)", and when two of
    them have an overlapping id "the merge fails with an error identifying
    ... the overlapping ids"; [dump] reads them from the [overlap] attribute
    of the [ValueError]. *)
Definition merge_dicts (parts : list Row) : result Row :=
  match overlap_of parts with
  | [] => Ok (concat parts)
  | k :: ks => Raise (ValueError (Some (k :: ks)))
  end.

(** Lines 115-120: a [ValueError] of the merge becomes a [RomMapError] that
    carries the set's name and the exception's [overlap]. *)
Definition merge_set (entity : string) (data : list (list Row)) : result (list Row) :=
  match mapR merge_dicts (zip_star data) with
  | Ok rows => Ok rows
  | Raise (ValueError (Some ov)) => Raise (RomMapError entity ov)
  | Raise (ValueError None) => Raise (AttributeError "overlap")
  | Raise e => Raise e
  end.

(** ** The header (lines 127-138) *)

(** An [OrderedDict] from field id to label. *)
Definition odict : Type := list (string * string).

(** [d[k] = v]: a known key keeps its place and takes the new value, a new
    key goes to the end. *)
Fixpoint odict_set (k v : string) (d : odict) : odict :=
  match d with
  | [] => [(k, v)]
  | (k', v') :: d' =>
      if String.eqb k' k then (k, v) :: d' else (k', v') :: odict_set k v d'
  end.

(** [OrderedDict(pairs)] and [d.update(pairs)]. *)
Definition odict_update (d : odict) (pairs : list (string * string)) : odict :=
  fold_left (fun d kv => odict_set kv.1 kv.2 d) pairs d.

Fixpoint odict_get (k : string) (d : odict) : option string :=
  match d with
  | [] => None
  | (k', v') :: d' => if String.eqb k' k then Some v' else odict_get k d'
  end.

Definition odict_remove (k : string) (d : odict) : odict :=
  List.filter (fun kv => negb (String.eqb kv.1 k)) d.

(** [d.move_to_end(k, False)] for a key of [d]. *)
Definition move_to_front (k : string) (d : odict) : odict :=
  match odict_get k d with
  | Some v => (k, v) :: odict_remove k d
  | None => d
  end.

(** [next((k for k, v in d.items() if v == "Name"), None)]. *)
Definition name_key (d : odict) : option string :=
  fst <$> List.find (fun kv => String.eqb kv.2 "Name") d.

(** The loop of lines 128-133. *)
Fixpoint collect_header `{MappingProtocol} (arrays : list ArrayDef) (headermap : odict)
    : result odict :=
  match arrays with
  | [] => Ok headermap
  | array :: arrays' =>
      let s := astruct array in
      vs <- values s ;;
      let allfields := vs ++ pointers s in
      let od := odict_update [] (map id_label allfields) in
      collect_header arrays' (odict_update headermap od)
  end.

Definition headermap_of `{MappingProtocol} (arrays : list ArrayDef) : result odict :=
  headermap <- collect_header arrays [] ;;
  Ok (match name_key headermap with
      | Some name => move_to_front name headermap
      | None => headermap
      end).

(** ** Writing the table (lines 141-146) *)

(** The output folder: each file is the list of the rows written to it,
    a row being the list of its cells (the quoting of the csv text is not
    modelled). *)
Abbreviation Files := (gmap string (list (list string))).

Inductive open_mode : Type := ModeW | ModeX.

Definition fname_of (folder entity : string) : string :=
  folder +:+ "/" +:+ entity +:+ ".csv".

(** [open(fname, mode)] in a folder that exists and can be written: mode
    ["x"] creates the file and fails when it exists, mode ["w"] creates or
    truncates it. *)
Definition open_file (fname : string) (mode : open_mode) (fs : Files) : result Files :=
  match mode, fs !! fname with
  | ModeX, Some _ => Raise (FileExistsError fname)
  | _, _ => Ok (<[fname := []]> fs)
  end.

(** [DictWriter._dict_to_list]: a key outside [fieldnames] is a
    [ValueError]; a missing key gives an empty cell. *)
Definition dict_to_list (fieldnames : list string) (row : Row) : result (list string) :=
  if forallb (fun k => existsb (String.eqb k) fieldnames) (map fst row)
  then Ok (map (fun k => match getattr row k with
                         | Ok v => str v
                         | Raise _ => ""
                         end) fieldnames)
  else Raise (ValueError None).

Definition append_row (fname : string) (cells : list string) (fs : Files) : Files :=
  <[fname := default [] (fs !! fname) ++ [cells]]> fs.

(** [writer.writerow] for each row in turn; the rows written before an
    exception stay in the file. *)
Fixpoint write_rows (fname : string) (fieldnames : list string) (rows : list Row)
    (fs : Files) : Files * result unit :=
  match rows with
  | [] => (fs, Ok tt)
  | row :: rows' =>
      match dict_to_list fieldnames row with
      | Ok cells => write_rows fname fieldnames rows' (append_row fname cells fs)
      | Raise e => (fs, Raise e)
      end
  end.

(** The header as the row dictionary that line 144 writes. *)
Definition header_row (headermap : odict) : Row :=
  map (fun kv => (kv.1, VStr kv.2)) headermap.

(** ** RomMap.dump (lines 97-146) *)

Record RomMap : Type := mkRomMap {
  arraysets : list (string * list ArrayDef)
}.

Section Dump.
Context {Item Store : Type} `{MappingProtocol} `{ArrayReader Item Store}.

(** Lines 112-138: everything [dump] computes for one set before it opens
    the output file. *)
Definition prepare (entity : string) (arrays : list ArrayDef) (st : Store)
    : result (odict * list Row * Store) :=
  ds <- read_set arrays st ;;
  rows <- merge_set entity ds.1 ;;
  headermap <- headermap_of arrays ;;
  Ok (headermap, rows, ds.2).

(** One iteration of the loop of line 107. *)
Definition dump_set (entity : string) (arrays : list ArrayDef) (folder : string)
    (mode : open_mode) (st : Store) (fs : Files) : Files * result Store :=
  match prepare entity arrays st with
  | Raise e => (fs, Raise e)
  | Ok (headermap, rows, st') =>
      let fname := fname_of folder entity in
      match open_file fname mode fs with
      | Raise e => (fs, Raise e)
      | Ok fs1 =>
          match write_rows fname (map fst headermap)
                           (header_row headermap :: rows) fs1 with
          | (fs2, Ok _) => (fs2, Ok st')
          | (fs2, Raise e) => (fs2, Raise e)
          end
      end
  end.

Fixpoint dump_sets (sets : list (string * list ArrayDef)) (folder : string)
    (mode : open_mode) (st : Store) (fs : Files) : Files * result Store :=
  match sets with
  | [] => (fs, Ok st)
  | (entity, arrays) :: sets' =>
      match dump_set entity arrays folder mode st fs with
      | (fs', Ok st') => dump_sets sets' folder mode st' fs'
      | (fs', Raise e) => (fs', Raise e)
      end
  end.

(** [RomMap.dump(rom, folder, allow_overwrite)]; [st] is the bitstream made
    from [rom], [fs] the files of [folder] before the call. *)
Definition dump (self : RomMap) (st : Store) (folder : string)
    (allow_overwrite : bool) (fs : Files) : Files * result Store :=
  let mode := if allow_overwrite then ModeW else ModeX in
  dump_sets (arraysets self) folder mode st fs.

End Dump.

(** The two calls on a [StructDef] as the class body stands: it has no
    [read] attribute, so the first call raises and no item ever reaches the
    second. *)
Definition no_reader : ArrayReader unit unit :=
  {| struct_read := fun _ _ _ => Raise (AttributeError "read");
     dereference_pointers := fun _ _ => Raise (AttributeError "struct_def") |}.

(** The attribute that [dump] misses on a set with a member array: [read]
    when some array has an element, [values] otherwise. *)
Definition missing_attribute (arrays : list ArrayDef) : string :=
  if existsb (fun a => 0 <? alength a) arrays then "read" else "values".

(** A reader for examples: every element of an array is the record that
    gives 1 to each storage field of its structure. *)
Definition ones_reader : ArrayReader StructDef unit :=
  {| struct_read := fun s _ st => Ok (s, st);
     dereference_pointers := fun s st =>
       Ok (map (fun f => (fid f, VInt 1)) (fields s), st) |}.

Definition stats : StructDef :=
  mkStructDef [field "*desc" "Text" "strz" 16]
              [field "hp" "HP" "uint" 8; field "name" "Name" "uint" 8].

Definition vitals : StructDef :=
  mkStructDef [field "*desc" "Description" "strz" 16]
              [field "hp" "Hit Points" "uint" 8].

Definition stats_array (n : Z) : ArrayDef :=
  mkArrayDef "stats" "monsters" 0 n 16 stats.

Definition vitals_array (n : Z) : ArrayDef :=
  mkArrayDef "vitals" "monsters" 4096 n 8 vitals.

Definition stats_only : RomMap := mkRomMap [("monsters", [stats_array 2])].

(** ** Example schemas *)

(** A schema whose Name-labelled field is declared last. *)
Definition monster_named : StructDef :=
  mkStructDef [field "*desc" "Description" "strz" 16]
              [field "id" "ID" "uint" 8; field "name" "Name" "uint" 16].

(** A schema with two fields labelled "Name". *)
Definition two_names : StructDef :=
  mkStructDef [] [field "a" "Name" "uint" 8; field "b" "Name" "uint" 8].

(** A schema of 12 bits. *)
Definition twelve_bits : StructDef :=
  mkStructDef [] [field "hp" "HP" "uint" 12].

(** ** Further conversions of addresses *)

(** The offset -> pointer -> offset conversion: the hirom pointer of a ROM
    offset, read back as a hirom pointer and used as a ROM offset. *)
Definition reoffset (N : Z) : result Z :=
  a <- Address.init N "offset" ;;
  b <- Address.init (Address.hirom a) "hirom" ;;
  Ok (Address.rom b).

(** ** A reader that shows the read positions *)


(** ** RomMap.makepatch: the changed bytes of one array (lines 172-177) *)

(** The loop of lines 175-177: the changeset of each item is merged into
    [changed], a later value replacing an earlier one under the same key,
    and the byte offset advances by [stride] after each item. *)
Fixpoint item_changes `{MappingProtocol} `{Packing} (sd : StructDef) (stride : Z)
    (contents : list (list (string * value))) (offset : Z) (changed : gmap Z Z)
    : result (gmap Z Z) :=
  match contents with
  | [] => Ok changed
  | item :: contents' =>
      m <- changeset sd item offset ;;
      item_changes sd stride contents' (offset + stride) (m ∪ changed)
  end.

(** Lines 172-177 for the array [a]: the offset and the stride, kept in
    bits, are divided by 8 with [//]. *)
Definition array_changes `{MappingProtocol} `{Packing} (a : ArrayDef)
    (contents : list (list (string * value))) (changed : gmap Z Z)
    : result (gmap Z Z) :=
  let offset := aoffset a / 8 in
  let stride := astride a / 8 in
  item_changes (astruct a) stride contents offset changed.

(** ** RomMap.__init__: the array sets (lines 93-95) *)

(** [self.arraysets] after the loop of lines 94-95.  [names] is the order in
    which the loop visits the set of the arrays' set names (a Python [set]
    has no fixed order): the set names, each once. *)
Definition arraysets_in (names : list string) (arrays : list ArrayDef)
    : list (string * list ArrayDef) :=
  map (fun _set => (_set, List.filter (fun a => String.eqb (aset a) _set) arrays))
      names.

(** ** hexify (lines 374-388) *)

(** The character of one hexadecimal digit. *)
Definition hex_char (upper : bool) (d : Z) : ascii :=
  ascii_of_N (Z.to_N (if d <? 10 then 48 + d
                      else (if upper then 55 else 87) + d)).

(** The hexadecimal digits of [n], prepended to [acc]; [fuel] bounds the
    number of digits. *)
Fixpoint hex_go (fuel : nat) (upper : bool) (n : Z) (acc : string) : string :=
  match fuel with
  | O => acc
  | S fuel' =>
      let acc' := String (hex_char upper (n mod 16)) acc in
      if n <? 16 then acc' else hex_go fuel' upper (n / 16) acc'
  end.

(** The hexadecimal digits of a natural number, without a prefix. *)
Definition hex_digits (upper : bool) (n : Z) : string :=
  hex_go (S (Z.to_nat (Z.log2 n))) upper n "".

Fixpoint zeros (n : nat) : string :=
  match n with
  | O => ""
  | S n' => String "0" (zeros n')
  end.

(** [s] filled with zeros on the left up to [width] characters. *)
Definition zfill (width : Z) (s : string) : string :=
  zeros (Z.to_nat (width - Z.of_nat (String.length s))) +:+ s.

(** The builtin [hex(i)]. *)
Definition hex (i : Z) : string :=
  (if i <? 0 then "-0x" else "0x") +:+ hex_digits false (Z.abs i).

(** [format(i, "0<width>X")]: upper-case digits, the zeros after the sign,
    the sign counted in the width. *)
Definition format_0X (width : Z) (i : Z) : string :=
  if i <? 0 then "-" +:+ zfill (width - 1) (hex_digits true (- i))
  else zfill width (hex_digits true i).

(** The characters that the format type [X] writes for a digit: [0]-[9]
    and the upper-case letters [A]-[F]. *)
Definition upper_hex_char (c : ascii) : bool :=
  let n := N_of_ascii c in
  ((48 <=? n) && (n <=? 57) || (65 <=? n) && (n <=? 70))%N.

(** [hexify(i, length)].  A negative number of digits makes the format
    string invalid, which [str.format] reports as a [ValueError]. *)
Definition hexify (i : Z) (length : option Z) : result string :=
  match length with
  | None => Ok (hex i)
  | Some length =>
      let numbytes := length / 8 in
      let numbytes := if negb (length mod 8 =? 0) then numbytes + 1 else numbytes in
      let width := numbytes * 2 in
      if width <? 0 then Raise (ValueError None)
      else Ok ("0x" +:+ format_0X width i)
  end.

(** ** Struct.to_od (lines 249-262) *)

(** [getattr(record, name, default)]. *)
Definition getattr_default (record : list (string * value)) (name : string)
    (default : value) : value :=
  match getattr record name with
  | Ok v => v
  | Raise _ => default
  end.

(** [s.lstrip('*')]. *)
Fixpoint lstrip_star (s : string) : string :=
  match s with
  | String "*" s' => lstrip_star s'
  | _ => s
  end.

(** [out[k] = v] on an ordered dictionary from label to value. *)
Fixpoint vdict_set (k : string) (v : value) (d : list (string * value))
    : list (string * value) :=
  match d with
  | [] => [(k, v)]
  | (k', v') :: d' =>
      if String.eqb k' k then (k, v) :: d' else (k', v') :: vdict_set k v d'
  end.

(** The value that line 259 gives to the field [fid]: the attribute of the
    data record, else the attribute of the calculated record under the id
    without its leading asterisks, else the empty string. *)
Definition od_value (self : Struct) (fid : string) : value :=
  getattr_default (data self) fid
    (getattr_default (calculated self) (lstrip_star fid) (VStr "")).

Definition to_od (self : Struct) : result (list (string * value)) :=
  pairs <- _output_fields (definition self) ;;
  Ok (fold_left (fun out fl => vdict_set fl.2 (od_value self fl.1) out) pairs []).

(** ** romtool.detect (romtool.py, lines 13-27) *)

(** [c.isspace()] for one character (code points below 256). *)
Definition isspace (c : ascii) : bool :=
  let n := N_of_ascii c in
  ((9 <=? n) && (n <=? 13) || (28 <=? n) && (n <=? 32)
   || (n =? 133) || (n =? 160))%N.

Definition nonspace (c : ascii) : bool := negb (isspace c).

(** [s.lstrip()] and [s.rstrip()]. *)
Fixpoint lstrip_ws (s : string) : string :=
  match s with
  | EmptyString => EmptyString
  | String c s' => if isspace c then lstrip_ws s' else s
  end.

Fixpoint rstrip_ws (s : string) : string :=
  match s with
  | EmptyString => EmptyString
  | String c s' =>
      match rstrip_ws s' with
      | EmptyString => if isspace c then EmptyString else String c EmptyString
      | String c' r => String c (String c' r)
      end
  end.

Definition strip (s : string) : string := rstrip_ws (lstrip_ws s).

(** The rest of [s] from its first blank on. *)
Fixpoint drop_word (s : string) : string :=
  match s with
  | EmptyString => EmptyString
  | String c s' => if isspace c then s else drop_word s'
  end.

(** [line.split(maxsplit=1)[1]]: what follows the first word and the blanks
    after it; there is no such element when nothing follows. *)
Definition split1_second (line : string) : option string :=
  match lstrip_ws (drop_word (lstrip_ws line)) with
  | EmptyString => None
  | String c rest => Some (String c rest)
  end.

Inductive detect_result : Type :=
| Detected (path : string)
| RomDetectionError (msg : string)
| Uncaught (e : exn).

(** [detect(romfile)], given the lines of [hashdb.txt] and the sha1 digest
    of the ROM in hexadecimal. *)
Definition detect (hashdb : list string) (romfile romhash : string) : detect_result :=
  match List.find (String.prefix romhash) hashdb with
  | None =>
      RomDetectionError ("sha1 hash for " +:+ romfile +:+ " not in hashdb.")
  | Some line =>
      match split1_second line with
      | None => Uncaught IndexError
      | Some rest => Detected ("specs/" +:+ strip rest)
      end
  end.

(** The newline character. *)
Definition newline : string := String (ascii_of_nat 10) EmptyString.

(** An output folder that already holds the table of the set
    "monsters". *)
Definition old_table : Files := {["out/monsters.csv" := [["old"]]]}.

(** * Verified properties *)

(** ** Address *)

Lemma mirror_low_bits (m : Z) : 0 <= m < 22 -> Z.testbit 0xC00000 m = false.
Proof.
  intros Hm. change 0xC00000 with (Z.shiftl 3 22).
  apply Z.shiftl_spec_low. lia.
Qed.

Lemma fold_mirror (x : Z) :
  Z.lor (x mod 0x400000) 0xC00000 mod 0x400000 = x mod 0x400000.
Proof.
  change 0x400000 with (2 ^ 22).
  apply Z.bits_inj'. intros m Hm.
  destruct (Z_lt_ge_dec m 22) as [Hlt | Hge].
  - rewrite !Z.mod_pow2_bits_low by lia.
    rewrite Z.lor_spec, Z.mod_pow2_bits_low by lia.
    rewrite mirror_low_bits by lia. apply orb_false_r.
  - rewrite !Z.mod_pow2_bits_high by lia. reflexivity.
Qed.

(** C3. Address symmetry: for every 24-bit value [N] constructed as an
    offset the hirom pointer is [N | 0xC00000], and for every 24-bit value
    [M] constructed as a hirom pointer the ROM offset is [M % 0x400000];
    both constructions return an address (no exception). *)
Theorem address_symmetry (N M : Z) :
  0 <= N < 2 ^ 24 -> 0 <= M < 2 ^ 24 ->
  (exists a, Address.init N "offset" = Ok a
             /\ Address.hirom a = Z.lor N 0xC00000)
  /\ (exists b, Address.init M "hirom" = Ok b
                /\ Address.rom b = M mod 0x400000).
Proof.
  intros _ _. split.
  - exists (Address.mk N). split; reflexivity.
  - exists (Address.mk (M mod 0x400000)). split; reflexivity.
Qed.

Lemma address_symmetry_witness :
  (exists a, Address.init 0x012345 "offset" = Ok a
             /\ Address.hirom a = Z.lor 0x012345 0xC00000)
  /\ (exists b, Address.init 0x808000 "hirom" = Ok b
                /\ Address.rom b = 0x808000 mod 0x400000).
Proof. apply (address_symmetry 0x012345 0x808000); lia. Defined.

(** C10. Pointer canonicalization: pointer -> offset -> pointer yields
    [(M % 0x400000) | 0xC00000] for every pointer [M]; converting the result
    again returns the same value; and for the pointer 0x808000 of another
    mirror the result 0xC08000 differs from the input. *)
Theorem canonicalization_idempotent (M : Z) :
  recanonicalize M = Ok (Z.lor (M mod 0x400000) 0xC00000)
  /\ (r <- recanonicalize M ;; recanonicalize r) = recanonicalize M
  /\ recanonicalize 0x808000 = Ok 0xC08000
  /\ recanonicalize 0x808000 <> Ok 0x808000.
Proof.
  split; [reflexivity |]. split.
  - unfold recanonicalize. simpl.
    unfold Address.hirom, Address._from_hirom. simpl Address._address.
    now rewrite fold_mirror.
  - split; [reflexivity | discriminate].
Qed.

(** ** Structure definitions: classification and construction *)

Lemma ispointer_nonempty (f : FieldRow) :
  nonempty_id f -> ispointer f = Ok (starts_with_star f).
Proof.
  unfold nonempty_id, ispointer, starts_with_star.
  destruct (rid f); [congruence | reflexivity].
Qed.

Lemma filterR_ispointer (fs : list FieldRow) :
  Forall nonempty_id fs ->
  filterR ispointer fs = Ok (List.filter starts_with_star fs).
Proof.
  induction 1 as [| f fs Hf _ IH]; simpl; [reflexivity |].
  rewrite (ispointer_nonempty f Hf). simpl. rewrite IH. reflexivity.
Qed.

Lemma filterR_ispointer_raises (fs : list FieldRow) :
  Exists (fun f => rid f = "") fs -> filterR ispointer fs = Raise IndexError.
Proof.
  induction fs as [| f fs IH]; intros Hex.
  - inversion Hex.
  - simpl. destruct (rid f) as [| c rest] eqn:Hid.
    + unfold ispointer. rewrite Hid. reflexivity.
    + assert (Hne : nonempty_id f) by (unfold nonempty_id; congruence).
      rewrite (ispointer_nonempty f Hne). simpl.
      rewrite IH; [reflexivity |].
      inversion Hex as [? ? H0 | ? ? H0]; subst; [congruence | exact H0].
Qed.

Lemma star_not_alnum (f : FieldRow) :
  starts_with_star f = true -> isdata f = false.
Proof.
  unfold starts_with_star, isdata, isalnum.
  destruct (rid f) as [| c rest]; [discriminate |].
  intros Hc. apply Ascii.eqb_eq in Hc. subst c. reflexivity.
Qed.

(** The constructor never returns: whatever the first two comprehensions
    and the conversion of the sizes give, line 309 raises. *)
Lemma StructDef_init_raises `{Util} (name : string) (fs : list FieldRow) :
  exists e, StructDef_init name fs = Raise e.
Proof.
  unfold StructDef_init.
  destruct (filterR ispointer fs) as [ps | e]; simpl; [| eauto].
  destruct (mapR _ (List.filter isdata fs)) as [fs' | e]; simpl; eauto.
Qed.

(** C9 (the code's behaviour). The pointer test raises [IndexError] on a
    row whose id is empty, and so does the construction of a structure
    definition from any list that holds one; when every id is non-empty the
    two comprehensions of lines 302-303 put each row in the pointer list
    only, in the storage list only, or in neither.  But construction is not
    total under that precondition: it returns for no list of rows.  When
    the sizes of the storage rows convert, it raises the [NameError] of
    line 309, where [namedtuple] is not defined; otherwise it raises what
    [tobits] raised. *)
Theorem structdef_init_never_returns `{Util} (name : string) (fs : list FieldRow) :
  (forall f, rid f = "" -> ispointer f = Raise IndexError)
  /\ (Exists (fun f => rid f = "") fs -> StructDef_init name fs = Raise IndexError)
  /\ (Forall nonempty_id fs ->
      filterR ispointer fs = Ok (List.filter starts_with_star fs)
      /\ (forall f, In f fs ->
            let pointers := List.filter starts_with_star fs in
            let storage := List.filter isdata fs in
            (In f pointers /\ ~ In f storage)
            \/ (~ In f pointers /\ In f storage)
            \/ (~ In f pointers /\ ~ In f storage))
      /\ (forall sizes,
            mapR (fun f => tobits (rsize f)) (List.filter isdata fs) = Ok sizes ->
            StructDef_init name fs = Raise (NameError "namedtuple"))
      /\ (forall e,
            mapR (fun f => tobits (rsize f)) (List.filter isdata fs) = Raise e ->
            StructDef_init name fs = Raise e))
  /\ (forall s, StructDef_init name fs <> Ok s).
Proof.
  split; [intros f Hf; unfold ispointer; now rewrite Hf |].
  split.
  { intros Hex. unfold StructDef_init.
    now rewrite (filterR_ispointer_raises fs Hex). }
  split.
  { intros Hne. split; [apply filterR_ispointer, Hne |]. split.
    - intros f Hin pointers storage. unfold pointers, storage.
      rewrite !filter_In.
      destruct (starts_with_star f) eqn:Hp.
      + left. split; [auto |]. intros [_ Hd].
        rewrite (star_not_alnum f Hp) in Hd. discriminate.
      + destruct (isdata f) eqn:Hd.
        * right. left. split; [intros [_ ?]; discriminate | auto].
        * right. right. split; intros [_ ?]; discriminate.
    - unfold StructDef_init. rewrite (filterR_ispointer fs Hne). simpl.
      generalize (List.filter isdata fs). intros data. split.
      + intros sizes Hsizes.
        assert (Hconv : exists fs',
                  mapR (fun f => size <- tobits (rsize f) ;; Ok (sized f size)) data
                  = Ok fs').
        { revert sizes Hsizes. induction data as [| f data IH]; intros sizes Hs.
          - simpl. eauto.
          - simpl in Hs. simpl.
            destruct (tobits (rsize f)) as [n | e]; simpl in *; [| discriminate].
            destruct (mapR (fun f0 => tobits (rsize f0)) data) as [ns | e];
              simpl in Hs; [| discriminate].
            destruct (IH ns eq_refl) as [fs' Hfs']. rewrite Hfs'. simpl. eauto. }
        destruct Hconv as [fs' ->]. reflexivity.
      + intros e He.
        assert (Hconv :
                  mapR (fun f => size <- tobits (rsize f) ;; Ok (sized f size)) data
                  = Raise e).
        { revert He. induction data as [| f data IH]; intros He.
          - discriminate.
          - simpl in He. simpl.
            destruct (tobits (rsize f)) as [n | e']; simpl in *; [| congruence].
            destruct (mapR (fun f0 => tobits (rsize f0)) data) as [ns | e'];
              simpl in He; [discriminate |].
            injection He as ->. rewrite (IH eq_refl). reflexivity. }
        rewrite Hconv. reflexivity. }
  intros s Hs. destruct (StructDef_init_raises name fs) as [e He]. congruence.
Qed.

(** ** Structure definitions: output order *)

Lemma filter_isname_split (pre post : list Field) (name : Field) :
  isname name = true -> Forall (fun f => isname f = false) pre ->
  List.filter isname (pre ++ name :: post) = name :: List.filter isname post.
Proof.
  intros Hn Hpre. induction Hpre as [| f pre Hf _ IH]; simpl.
  - now rewrite Hn.
  - now rewrite Hf.
Qed.

Lemma filter_notname_id (l : list Field) :
  Forall (fun f => isname f = false) l -> List.filter notname l = l.
Proof.
  induction 1 as [| f l Hf _ IH]; simpl; [reflexivity |].
  unfold notname at 1. rewrite Hf. simpl. now rewrite IH.
Qed.

Lemma remove_first_name_split (pre post : list Field) (name : Field) :
  isname name = true -> Forall (fun f => isname f = false) pre ->
  remove_first_name (pre ++ name :: post) = pre ++ post.
Proof.
  intros Hn Hpre. induction Hpre as [| f pre Hf _ IH]; simpl.
  - now rewrite Hn.
  - rewrite Hf. now rewrite IH.
Qed.

(** C5 (amended). Output ordering: for a schema with a field labelled
    "Name", [_output_fields] returns the first such field of the storage
    fields followed by the pointer fields, then the storage fields whose
    label is not "Name" in declaration order, then the pointer fields whose
    label is not "Name" in declaration order; when no other field is
    labelled "Name" this is the order of the specification. *)
Theorem output_fields_name_first
    (s : StructDef) (pre post : list Field) (name : Field) :
  fields s ++ pointers s = pre ++ name :: post ->
  isname name = true ->
  Forall (fun f => isname f = false) pre ->
  _output_fields s
  = Ok (id_label name
        :: map id_label (List.filter notname (fields s))
        ++ map id_label (List.filter notname (pointers s)))
  /\ (Forall (fun f => isname f = false) post ->
      _output_fields s = Ok (spec_outputOrder s)).
Proof.
  intros Hsplit Hn Hpre.
  assert (Hout : _output_fields s
    = Ok (id_label name
          :: map id_label (List.filter notname (fields s))
          ++ map id_label (List.filter notname (pointers s)))).
  { unfold _output_fields. rewrite Hsplit.
    rewrite (filter_isname_split pre post name Hn Hpre). simpl.
    now rewrite map_app. }
  split; [exact Hout |].
  intros Hpost. rewrite Hout. unfold spec_outputOrder. rewrite Hsplit.
  rewrite (filter_isname_split pre post name Hn Hpre).
  rewrite (remove_first_name_split pre post name Hn Hpre).
  simpl. f_equal. f_equal.
  rewrite <- map_app, <- List.filter_app, Hsplit, List.filter_app. simpl.
  unfold notname at 2. rewrite Hn. simpl.
  now rewrite (filter_notname_id pre Hpre), (filter_notname_id post Hpost).
Qed.

Lemma output_fields_name_first_witness :
  _output_fields monster_named
  = Ok [("name", "Name"); ("id", "ID"); ("*desc", "Description")]
  /\ _output_fields monster_named = Ok (spec_outputOrder monster_named).
Proof.
  destruct (output_fields_name_first monster_named
              [field "id" "ID" "uint" 8]
              [field "*desc" "Description" "strz" 16]
              (field "name" "Name" "uint" 16)) as [Horder Hspec].
  - reflexivity.
  - reflexivity.
  - repeat constructor.
  - split; [exact Horder | apply Hspec; repeat constructor].
Defined.

(** C5, counterexample: with two fields labelled "Name" the second one is
    a remaining storage field for the specification, and the code drops
    it. *)
Lemma output_fields_drops_second_name :
  _output_fields two_names = Ok [("a", "Name")]
  /\ spec_outputOrder two_names = [("a", "Name"); ("b", "Name")]
  /\ _output_fields two_names <> Ok (spec_outputOrder two_names).
Proof. split; [reflexivity |]. split; [reflexivity | discriminate]. Qed.

(** Without a field labelled "Name" the [next] call of line 332 has no
    default and raises [StopIteration]. *)
Lemma output_fields_no_name (s : StructDef) :
  Forall (fun f => isname f = false) (fields s ++ pointers s) ->
  _output_fields s = Raise StopIteration.
Proof.
  intros H. unfold _output_fields.
  assert (Hnil : List.filter isname (fields s ++ pointers s) = []).
  { induction H as [| f l Hf _ IH]; simpl; [reflexivity |]. now rewrite Hf. }
  now rewrite Hnil.
Qed.

(** ** Structure definitions: widths *)

Lemma fold_bits_acc (l : list Field) (acc : Z) :
  fold_left (fun a f => a + fsize f) l acc = acc + sumZ (map fsize l).
Proof.
  revert acc. induction l as [| f l IH]; intros acc; simpl.
  - unfold sumZ. simpl. lia.
  - rewrite IH. unfold sumZ. simpl. lia.
Qed.

Lemma fold_bytes_acc (l : list Field) (acc : Q) :
  (fold_left (fun a f => a + inject_Z (fsize f) / 8) l acc
   == acc + inject_Z (sumZ (map fsize l)) / 8)%Q.
Proof.
  revert acc. induction l as [| f l IH]; intros acc; simpl.
  - unfold sumZ. simpl. field.
  - rewrite IH. unfold sumZ. simpl fold_right.
    rewrite inject_Z_plus. field.
Qed.

Lemma bits_sum (s : StructDef) : bits s = sumZ (map fsize (fields s)).
Proof. unfold bits. rewrite fold_bits_acc. lia. Qed.

Lemma exact_range_spec (s : StructDef) :
  exact_range s = true
  <-> Forall (fun f => 0 <= fsize f) (fields s) /\ bits s < 2 ^ 53.
Proof.
  unfold exact_range. rewrite andb_true_iff, forallb_forall, List.Forall_forall.
  rewrite Z.ltb_lt. split; intros [Hall Hlt]; (split; [| exact Hlt]);
    intros f Hf; apply Z.leb_le; auto.
Qed.

Lemma bytes_exact (s : StructDef) :
  exact_range s = true ->
  exists q, bytes s = Some q /\ (q == inject_Z (bits s) / 8)%Q.
Proof.
  intros Hr. unfold bytes. rewrite Hr. eexists. split; [reflexivity |].
  rewrite fold_bytes_acc, bits_sum. field.
Qed.

(** C6 (amended). Width computation: [bits] is the sum of the storage
    fields' sizes and ignores the pointer fields; on the schemas whose
    sizes are not negative and add up to less than 2^53 bits, [bytes] is
    that sum divided by 8 as an exact quotient, without rounding, so it
    equals [ceil(bits / 8)] when the bit width is a multiple of 8 and is not
    an integer otherwise. *)
Theorem width_computation (s : StructDef) :
  bits s = sumZ (map fsize (fields s))
  /\ (forall ps, bits (mkStructDef ps (fields s)) = bits s)
  /\ (Forall (fun f => 0 <= fsize f) (fields s) ->
      bits s < 2 ^ 53 ->
      exists q,
        bytes s = Some q
        /\ (q == inject_Z (bits s) / 8)%Q
        /\ (bits s mod 8 = 0 -> (q == inject_Z (ceil8 (bits s)))%Q)
        /\ (bits s mod 8 <> 0 -> forall n : Z, ~ (q == inject_Z n)%Q)).
Proof.
  split; [apply bits_sum |]. split; [reflexivity |].
  intros Hpos Hlt.
  destruct (bytes_exact s) as [q [Hq Hval]].
  { apply exact_range_spec. split; assumption. }
  exists q. split; [exact Hq |]. split; [exact Hval |]. split.
  - intros Hmod. rewrite Hval.
    apply Z.mod_divide in Hmod; [| lia]. destruct Hmod as [k Hk].
    unfold ceil8. rewrite Hk.
    replace (k * 8 + 7) with (7 + k * 8) by lia.
    rewrite Z.div_add by lia. change (7 / 8) with 0.
    simpl (0 + k). rewrite inject_Z_mult.
    unfold Qeq, Qdiv, Qmult, Qinv, inject_Z. simpl. lia.
  - intros Hmod n Hn. rewrite Hval in Hn.
    unfold Qeq, Qdiv, Qmult, Qinv, inject_Z in Hn. simpl in Hn.
    apply Hmod. replace (bits s) with (n * 8) by lia.
    apply Z.mod_mul. lia.
Qed.

(** The specification's example structure, 8 + 16 bits, is 3 bytes wide. *)
Lemma bytes_monster :
  bits monster = 24 /\ exists q, bytes monster = Some q /\ (q == 3)%Q.
Proof. split; [reflexivity |]. eexists. split; reflexivity. Qed.

(** C6, counterexample: a schema of 12 bits has [bytes] 1.5, not the
    rounded-up integer 2. *)
Lemma bytes_not_rounded :
  bits twelve_bits = 12
  /\ exists q, bytes twelve_bits = Some q
       /\ (q == 3 # 2)%Q
       /\ ceil8 (bits twelve_bits) = 2
       /\ ~ (q == inject_Z (ceil8 (bits twelve_bits)))%Q.
Proof.
  split; [reflexivity |]. eexists. split; [reflexivity |].
  split; [reflexivity |]. split; [reflexivity |].
  intros H. vm_compute in H. discriminate.
Qed.

(** ** Changesets *)

(** C2 (the code's behaviour). [changeset] returns for the empty item
    only: for an item with at least one entry, line 363 subscripts the
    definition, which the class does not support, and the call raises
    [TypeError] before any value is parsed or packed, for every schema,
    every offset and every packing library.  So the loop of [makepatch]
    (lines 175-177) raises at the first edited row that has a cell, and no
    changed byte is ever produced. *)
Theorem changeset_not_subscriptable `{Packing} (sd : StructDef)
    (item : list (string * value)) (offset : Z) :
  (forall kv rest, item = kv :: rest ->
     @changeset no_mapping _ sd item offset
     = Raise (TypeError "'StructDef' object is not subscriptable"))
  /\ (forall m, @changeset no_mapping _ sd item offset = Ok m -> item = [])
  /\ (forall kv rest a contents changed, item = kv :: rest ->
        @array_changes no_mapping _ a (item :: contents) changed
        = Raise (TypeError "'StructDef' object is not subscriptable")).
Proof.
  split; [| split].
  - intros [fid v] rest ->. reflexivity.
  - intros m Hm. destruct item as [| [fid v] rest]; [reflexivity |].
    discriminate Hm.
  - intros [fid v] rest a contents changed ->. reflexivity.
Qed.

(** The specification's example: the row [{id: "5", hp: "200"}] of the
    structure with an 8-bit [id] and a 16-bit [hp], at byte offset 0. *)
Lemma changeset_monster_raises :
  @changeset no_mapping plain_packing monster [("id", VStr "5"); ("hp", VStr "200")] 0
  = Raise (TypeError "'StructDef' object is not subscriptable").
Proof. reflexivity. Qed.

(** ** Struct.read *)

Section StructRead.
Context {Stream : Type} `{StreamOps Stream}.

Lemma read_fields_raises (f : Field) (fs : list Field)
    (record : list (string * value)) (stream : Stream) :
  exists e, read_fields (f :: fs) record stream = Raise e.
Proof.
  simpl. destruct (stream_read stream (fmt_of f)) as [vs | e]; simpl; eauto.
Qed.

(** C1 (the code's behaviour). [Struct.read] never completes on a
    definition with a storage field: whatever the stream and whatever
    [bitstream] and [_datant] are bound to, it raises; when the seek, line
    244 and the first [stream.read] succeed, the exception is the
    [TypeError] of the two-argument [setattr]. *)
Theorem struct_read_raises (ps : list Field) (f : Field) (fs : list Field)
    (record calc : list (string * value)) (stream : Stream) (offset : option Z) :
  let self := mkStruct (mkStructDef ps (f :: fs)) record calc in
  (exists e, Struct_read self stream offset = Raise e)
  /\ (forall s1 ds vs,
        match offset with Some o => seek stream o | None => Ok stream end = Ok s1 ->
        datant_readlist (definition self) (map fmt_of (f :: fs)) s1 = Ok ds ->
        stream_read ds.2 (fmt_of f) = Ok vs ->
        Struct_read self stream offset
        = Raise (TypeError "setattr expected 3 arguments, got 2")).
Proof.
  intros self. split.
  - unfold Struct_read.
    destruct (match offset with Some o => seek stream o | None => Ok stream end)
      as [s1 | e]; simpl; [| eauto].
    destruct (datant_readlist (mkStructDef ps (f :: fs)) (fmt_of f :: map fmt_of fs) s1)
      as [ds | e]; simpl; [| eauto].
    destruct (read_fields_raises f fs ds.1 ds.2) as [e He].
    simpl in He. rewrite He. simpl. eauto.
  - intros s1 ds vs Hseek Hds Hvs. unfold Struct_read. rewrite Hseek. simpl.
    simpl in Hds. rewrite Hds. simpl. rewrite Hvs. reflexivity.
Qed.

End StructRead.

(** The specification's example: the instance [{id: 5, hp: 200}]
    serializes to three bytes.  Reading those bytes back from a
    [ConstBitStream] at offset 0 stops at line 241, where the stream has no
    [seek]; without an offset it stops at line 244, where [bitstream] is not
    defined. *)
Lemma monster_round_trip_stops :
  let stream := (bits_of_uint 8 5 ++ bits_of_uint 8 0 ++ bits_of_uint 8 200, 0%nat) in
  @to_bytes plain_packing monster_5_200 = Ok [5; 0; 200]
  /\ @Struct_read _ const_stream (mkStruct monster [] []) stream (Some 0)
     = Raise (AttributeError "seek")
  /\ @Struct_read _ const_stream (mkStruct monster [] []) stream None
     = Raise (NameError "bitstream").
Proof. repeat split; reflexivity. Qed.

(** ** RomMap.dump on the structure definitions of the module *)

Lemma write_rows_other (fname : string) (fieldnames : list string)
    (rows : list Row) (fs : Files) (k : string) :
  k <> fname -> (write_rows fname fieldnames rows fs).1 !! k = fs !! k.
Proof.
  intros Hk. revert fs. induction rows as [| row rows IH]; intros fs; simpl.
  - reflexivity.
  - destruct (dict_to_list fieldnames row) as [cells | e]; simpl; [| reflexivity].
    rewrite IH. unfold append_row. now rewrite lookup_insert_ne.
Qed.

(** Reading an array whose structure is a [StructDef]: the first element
    is never read, so only an array without elements is read at all. *)
Lemma ArrayDef_read_no_reader (a : ArrayDef) :
  @ArrayDef_read unit unit no_reader a tt
  = if 0 <? alength a then Raise (AttributeError "read") else Ok ([], tt).
Proof.
  unfold ArrayDef_read. destruct (0 <? alength a) eqn:Hlen.
  - apply Z.ltb_lt in Hlen. rewrite seqZ_cons by lia. reflexivity.
  - apply Z.ltb_ge in Hlen. rewrite seqZ_nil by lia. reflexivity.
Qed.

Lemma read_set_no_reader (arrays : list ArrayDef) :
  @read_set unit unit no_reader arrays tt
  = if existsb (fun a => 0 <? alength a) arrays
    then Raise (AttributeError "read")
    else Ok (map (fun _ => []) arrays, tt).
Proof.
  induction arrays as [| a arrays IH]; [reflexivity |].
  cbn [read_set existsb map]. rewrite ArrayDef_read_no_reader.
  destruct (0 <? alength a); [reflexivity |].
  cbn [bind orb fst snd]. rewrite IH.
  destruct (existsb _ arrays); reflexivity.
Qed.

(** No tuple is zipped from lists the first of which is empty. *)
Lemma zip_star_empty_head {A : Type} (ls : list (list A)) : zip_star ([] :: ls) = [].
Proof. destruct ls; reflexivity. Qed.

Lemma headermap_of_no_mapping (a : ArrayDef) (arrays : list ArrayDef) :
  @headermap_of no_mapping (a :: arrays) = Raise (AttributeError "values").
Proof. reflexivity. Qed.

Lemma prepare_no_mapping (entity : string) (a : ArrayDef) (arrays : list ArrayDef) :
  @prepare unit unit no_mapping no_reader entity (a :: arrays) tt
  = Raise (AttributeError (missing_attribute (a :: arrays))).
Proof.
  unfold prepare, missing_attribute. rewrite read_set_no_reader.
  destruct (existsb _ (a :: arrays)); [reflexivity |].
  cbn [bind fst snd map]. unfold merge_set. rewrite zip_star_empty_head.
  reflexivity.
Qed.

(** C4 (the code's behaviour). For a set with a member array, whatever
    ids its arrays declare or share, the iteration of [dump] raises
    [AttributeError] and leaves the folder as it was: the first element read
    calls [read] on a [StructDef], and when no array has an element the
    header calls [values] on it.  The error names neither the set nor an
    id, and it is never the [RomMapError] of line 120. *)
Theorem dump_set_overlap_unreported (entity : string) (a : ArrayDef)
    (arrays : list ArrayDef) (folder : string) (mode : open_mode) (fs : Files) :
  let out := @dump_set unit unit no_mapping no_reader
               entity (a :: arrays) folder mode tt fs in
  out = (fs, Raise (AttributeError (missing_attribute (a :: arrays))))
  /\ (missing_attribute (a :: arrays) = "read"
      \/ missing_attribute (a :: arrays) = "values")
  /\ forall set overlap, out.2 <> Raise (RomMapError set overlap).
Proof.
  intros out. unfold out, dump_set. rewrite prepare_no_mapping.
  split; [reflexivity |]. split.
  - unfold missing_attribute. destruct (existsb _ (a :: arrays)); auto.
  - intros set overlap. discriminate.
Qed.

(** The specification's example: two arrays of two elements each that both
    declare [hp] (and [*desc]). *)
Lemma dump_set_monsters_raises :
  @dump_set unit unit no_mapping no_reader "monsters"
    [stats_array 2; vitals_array 2] "out" ModeX tt ∅
  = (∅, Raise (AttributeError "read")).
Proof. reflexivity. Qed.

Section Header.
Context {Item Store : Type} `{ArrayReader Item Store}.

(** C7 (the code's behaviour). No header is built for a set with a member
    array: line 130 calls [s.values()] on the array's [StructDef], which has
    no such attribute, and raises [AttributeError] before any id or label is
    looked at.  So whatever the arrays hold for reading their elements, the
    iteration of [dump] raises before it opens the output file and writes no
    header row.  Only the set without arrays gets a header, the empty
    one. *)
Theorem header_never_built (entity : string) (a : ArrayDef) (arrays : list ArrayDef)
    (folder : string) (mode : open_mode) (st : Store) (fs : Files) :
  @headermap_of no_mapping (a :: arrays) = Raise (AttributeError "values")
  /\ @headermap_of no_mapping [] = Ok []
  /\ (exists e, @prepare Item Store no_mapping _ entity (a :: arrays) st = Raise e)
  /\ (exists e, @dump_set Item Store no_mapping _ entity (a :: arrays) folder mode st fs
                = (fs, Raise e)).
Proof.
  split; [reflexivity |]. split; [reflexivity |].
  assert (Hp : exists e,
            @prepare Item Store no_mapping _ entity (a :: arrays) st = Raise e).
  { unfold prepare.
    destruct (read_set (a :: arrays) st) as [ds | e]; [| simpl; eauto].
    cbn [bind]. destruct (merge_set entity ds.1) as [rows | e]; [| simpl; eauto].
    cbn [bind]. rewrite headermap_of_no_mapping. simpl. eauto. }
  split; [exact Hp |].
  destruct Hp as [e He]. exists e. unfold dump_set. rewrite He. reflexivity.
Qed.

End Header.

Lemma dump_sets_no_mapping (sets : list (string * list ArrayDef))
    (folder : string) (mode : open_mode) (fs : Files) :
  Forall (fun es : string * list ArrayDef => es.2 <> []) sets ->
  @dump_sets unit unit no_mapping no_reader sets folder mode tt fs
  = match sets with
    | [] => (fs, Ok tt)
    | (_, arrays) :: _ => (fs, Raise (AttributeError (missing_attribute arrays)))
    end.
Proof.
  intros Hsets. destruct sets as [| [entity arrays] sets]; [reflexivity |].
  inversion Hsets as [| ? ? Hne _]; subst. simpl in Hne.
  destruct arrays as [| a arrays]; [congruence |].
  cbn [dump_sets]. unfold dump_set. rewrite prepare_no_mapping. reflexivity.
Qed.

(** The mode of line 100 decides only for a set without arrays, which
    [RomMap.__init__] does not build: there [open] is reached, an existing
    destination is refused in mode ["x"] and replaced, by the empty header
    row, in mode ["w"]. *)
Lemma dump_memberless_set (entity folder : string) (fs : Files)
    (old : list (list string)) :
  fs !! fname_of folder entity = Some old ->
  @dump unit unit no_mapping no_reader (mkRomMap [(entity, [])]) tt folder false fs
  = (fs, Raise (FileExistsError (fname_of folder entity)))
  /\ @dump unit unit no_mapping no_reader (mkRomMap [(entity, [])]) tt folder true fs
     = (<[fname_of folder entity := [[]]]> fs, Ok tt).
Proof.
  intros Hold.
  assert (Hp : @prepare unit unit no_mapping no_reader entity [] tt
               = Ok ([], [], tt)) by reflexivity.
  assert (Hw : forall fs1 : Files,
            write_rows (fname_of folder entity) [] [[]] fs1
            = (append_row (fname_of folder entity) [] fs1, Ok tt)) by reflexivity.
  unfold dump. cbn [arraysets dump_sets]. unfold dump_set. rewrite Hp.
  unfold open_file. rewrite Hold. split; [reflexivity |].
  cbn [map header_row]. rewrite Hw. unfold append_row.
  rewrite lookup_insert_eq. cbn [default app].
  rewrite insert_insert_eq. reflexivity.
Qed.


(** C8 (the code's behaviour). On a map whose sets all have a member
    array, as [RomMap.__init__] builds them, [dump] never opens a file: the
    folder is the same after the call, whether or not overwriting is
    allowed.  With no set at all it returns; otherwise it raises
    [AttributeError] at the first set.  In particular an existing
    destination is not replaced when overwriting is requested, and when it
    is not requested the error is not [FileExistsError].  The mode of line
    100 shows only on a set without arrays: there an existing destination
    is refused without overwriting and replaced with it. *)
Theorem dump_never_opens (self : RomMap) (folder : string)
    (allow_overwrite : bool) (fs : Files) :
  Forall (fun es : string * list ArrayDef => es.2 <> []) (arraysets self) ->
  let out := @dump unit unit no_mapping no_reader
               self tt folder allow_overwrite fs in
  out.1 = fs
  /\ (arraysets self = [] -> out.2 = Ok tt)
  /\ (arraysets self <> [] -> exists attr, out.2 = Raise (AttributeError attr))
  /\ (forall entity old,
        fs !! fname_of folder entity = Some old ->
        out.1 !! fname_of folder entity = Some old
        /\ out.2 <> Raise (FileExistsError (fname_of folder entity)))
  /\ (forall entity old,
        fs !! fname_of folder entity = Some old ->
        @dump unit unit no_mapping no_reader
          (mkRomMap [(entity, [])]) tt folder false fs
        = (fs, Raise (FileExistsError (fname_of folder entity)))
        /\ @dump unit unit no_mapping no_reader
             (mkRomMap [(entity, [])]) tt folder true fs
           = (<[fname_of folder entity := [[]]]> fs, Ok tt)).
Proof.
  intros Hsets out.
  assert (Hlast : forall entity old,
            fs !! fname_of folder entity = Some old ->
            @dump unit unit no_mapping no_reader
              (mkRomMap [(entity, [])]) tt folder false fs
            = (fs, Raise (FileExistsError (fname_of folder entity)))
            /\ @dump unit unit no_mapping no_reader
                 (mkRomMap [(entity, [])]) tt folder true fs
               = (<[fname_of folder entity := [[]]]> fs, Ok tt))
    by (intros entity old; apply dump_memberless_set).
  unfold out, dump.
  rewrite (dump_sets_no_mapping _ folder _ fs Hsets).
  destruct (arraysets self) as [| [entity arrays] sets].
  - repeat split; try congruence; auto; apply (Hlast _ _ H).
  - repeat split; try congruence; eauto; simpl; auto; apply (Hlast _ _ H).
Qed.

Lemma dump_never_opens_witness :
  (@dump unit unit no_mapping no_reader stats_only tt "out" true old_table).1
  = old_table
  /\ (arraysets stats_only = [] ->
      (@dump unit unit no_mapping no_reader stats_only tt "out" true old_table).2
      = Ok tt)
  /\ (arraysets stats_only <> [] ->
      exists attr,
        (@dump unit unit no_mapping no_reader stats_only tt "out" true old_table).2
        = Raise (AttributeError attr))
  /\ (forall entity old,
        old_table !! fname_of "out" entity = Some old ->
        (@dump unit unit no_mapping no_reader stats_only tt "out" true old_table).1
          !! fname_of "out" entity = Some old
        /\ (@dump unit unit no_mapping no_reader stats_only tt "out" true old_table).2
           <> Raise (FileExistsError (fname_of "out" entity)))
  /\ (forall entity old,
        old_table !! fname_of "out" entity = Some old ->
        @dump unit unit no_mapping no_reader
          (mkRomMap [(entity, [])]) tt "out" false old_table
        = (old_table, Raise (FileExistsError (fname_of "out" entity)))
        /\ @dump unit unit no_mapping no_reader
             (mkRomMap [(entity, [])]) tt "out" true old_table
           = (<[fname_of "out" entity := [[]]]> old_table, Ok tt)).
Proof.
  apply (dump_never_opens stats_only "out" true old_table).
  repeat constructor; simpl; discriminate.
Defined.

(** * Further properties of the code *)

(** ** Lists and keys *)

Lemma existsb_eqb_In (k : string) (l : list string) :
  existsb (String.eqb k) l = true <-> In k l.
Proof.
  rewrite existsb_exists. split.
  - intros [x [Hin Hx]]. apply String.eqb_eq in Hx. now subst.
  - intros Hin. exists k. split; [exact Hin | apply String.eqb_refl].
Qed.

(** ** Address: round trip and range *)

Lemma mirror_high_bits (m : Z) : 24 <= m -> Z.testbit 0xC00000 m = false.
Proof.
  intros Hm. change 0xC00000 with (Z.shiftl 3 22).
  rewrite Z.shiftl_spec by lia.
  apply Z.bits_above_log2; [lia |]. change (Z.log2 3) with 1. lia.
Qed.

Lemma mirror_mid_bits (m : Z) : 22 <= m < 24 -> Z.testbit 0xC00000 m = true.
Proof.
  intros Hm. assert (m = 22 \/ m = 23) as [-> | ->] by lia; reflexivity.
Qed.

Lemma lor_mirror_mod (x : Z) : Z.lor x 0xC00000 mod 0x400000 = x mod 0x400000.
Proof.
  change 0x400000 with (2 ^ 22).
  apply Z.bits_inj'. intros m Hm.
  destruct (Z_lt_ge_dec m 22) as [Hlt | Hge].
  - rewrite !Z.mod_pow2_bits_low by lia.
    rewrite Z.lor_spec, mirror_low_bits by lia. apply orb_false_r.
  - rewrite !Z.mod_pow2_bits_high by lia. reflexivity.
Qed.

(** X1. An offset that is turned into a hirom pointer and read back as one
    comes back reduced modulo 0x400000: offsets below 4 MiB make the round
    trip unchanged, and the offset read from any pointer lies in
    [0, 0x400000), negative input included. *)
Theorem offset_pointer_round_trip (N : Z) :
  reoffset N = Ok (N mod 0x400000)
  /\ (0 <= N < 0x400000 -> reoffset N = Ok N)
  /\ (forall b, Address.init N "hirom" = Ok b -> 0 <= Address.rom b < 0x400000).
Proof.
  assert (Hre : reoffset N = Ok (N mod 0x400000)).
  { unfold reoffset. simpl.
    unfold Address.rom, Address._from_hirom, Address.hirom,
      Address._from_offset. simpl.
    now rewrite lor_mirror_mod. }
  split; [exact Hre |]. split.
  - intros HN. rewrite Hre. now rewrite Z.mod_small.
  - intros b Hb. simpl in Hb. injection Hb as <-.
    unfold Address.rom, Address._from_hirom. simpl.
    apply Z.mod_pos_bound. lia.
Qed.

(** X2. For a 24-bit offset the hirom pointer is 0xC00000 plus the offset
    within its 4 MiB bank, so it lies in the C0-FF mirror and is again a
    24-bit value. *)
Theorem hirom_in_mirror (N : Z) (a : Address.t) :
  0 <= N < 2 ^ 24 ->
  Address.init N "offset" = Ok a ->
  Address.hirom a = 0xC00000 + N mod 0x400000
  /\ 0xC00000 <= Address.hirom a < 2 ^ 24.
Proof.
  intros HN Ha. simpl in Ha. injection Ha as <-.
  unfold Address.hirom, Address._from_offset. simpl.
  assert (Hmod : 0 <= N mod 0x400000 < 0x400000)
    by (apply Z.mod_pos_bound; lia).
  assert (Heq : Z.lor N 0xC00000 = 0xC00000 + N mod 0x400000).
  { assert (Hland : Z.land 0xC00000 (N mod 0x400000) = 0).
    { apply Z.bits_inj'. intros m Hm. rewrite Z.land_spec, Z.bits_0.
      change 0x400000 with (2 ^ 22).
      destruct (Z_lt_ge_dec m 22) as [Hlt | Hge].
      - now rewrite mirror_low_bits by lia.
      - rewrite Z.mod_pow2_bits_high by lia. apply andb_false_r. }
    rewrite (Z.add_nocarry_lxor _ _ Hland), (Z.lxor_lor _ _ Hland).
    apply Z.bits_inj'. intros m Hm. rewrite !Z.lor_spec.
    change 0x400000 with (2 ^ 22).
    destruct (Z_lt_ge_dec m 22) as [Hlt | Hge].
    - rewrite Z.mod_pow2_bits_low by lia. apply orb_comm.
    - rewrite Z.mod_pow2_bits_high by lia. rewrite orb_false_r.
      destruct (Z_lt_ge_dec m 24) as [Hlt24 | Hge24].
      + rewrite mirror_mid_bits by lia. apply orb_true_r.
      + rewrite mirror_high_bits by lia. rewrite orb_false_r.
        apply Z.bits_above_log2; [lia |].
        destruct (Z.eq_dec N 0) as [-> | Hnz]; [simpl; lia |].
        assert (Z.log2 N < 24) by (apply Z.log2_lt_pow2; lia). lia. }
  rewrite Heq. change (2 ^ 24) with 16777216. lia.
Qed.

Lemma hirom_in_mirror_witness :
  Address.hirom (Address.mk 0x412345) = 0xC00000 + 0x412345 mod 0x400000
  /\ 0xC00000 <= Address.hirom (Address.mk 0x412345) < 2 ^ 24.
Proof.
  apply (hirom_in_mirror 0x412345 (Address.mk 0x412345)).
  - change (2 ^ 24) with 16777216. lia.
  - reflexivity.
Defined.

(** ** Struct.to_bytes *)





(** ** ArrayDef.read *)

Section ArrayRead.
Context {Item Store : Type} `{ArrayReader Item Store}.





End ArrayRead.


(** ** RomMap.dump: which files it touches *)

Section DumpOutput.
Context {Item Store : Type} `{MappingProtocol} `{ArrayReader Item Store}.

Lemma dump_set_other (entity : string) (arrays : list ArrayDef)
    (folder : string) (mode : open_mode) (st : Store) (fs : Files) (k : string) :
  k <> fname_of folder entity ->
  (dump_set entity arrays folder mode st fs).1 !! k = fs !! k.
Proof.
  intros Hk. unfold dump_set.
  destruct (prepare entity arrays st) as [[[h rows] s1] |]; [| reflexivity].
  destruct (open_file (fname_of folder entity) mode fs) as [fs1 |] eqn:Ho;
    [| reflexivity].
  assert (Hfs1 : fs1 = <[fname_of folder entity := []]> fs).
  { unfold open_file in Ho.
    destruct mode, (fs !! fname_of folder entity); congruence. }
  pose proof (write_rows_other (fname_of folder entity) (map fst h)
                (header_row h :: rows) fs1 k Hk) as Hw.
  destruct (write_rows _ _ _ fs1) as [fs2 [u |]]; simpl in *;
    rewrite Hw, Hfs1; now apply lookup_insert_ne.
Qed.

(** X11. [dump] touches no file but the tables of its sets: a file of the
    output folder whose name is not [folder/entity.csv] for a set of the
    map is the same after the call, whether the call succeeds or raises and
    whether or not overwriting is allowed. *)
Theorem dump_touches_only_its_tables (self : RomMap) (folder : string)
    (allow_overwrite : bool) (st : Store) (fs : Files) (k : string) :
  (forall entity arrays, In (entity, arrays) (arraysets self) ->
     k <> fname_of folder entity) ->
  (dump self st folder allow_overwrite fs).1 !! k = fs !! k.
Proof.
  unfold dump. generalize (if allow_overwrite then ModeW else ModeX). intros mode.
  generalize (arraysets self). intros sets. revert st fs.
  induction sets as [| [entity arrays] sets IH]; intros st fs Hk; simpl.
  - reflexivity.
  - pose proof (dump_set_other entity arrays folder mode st fs k
                  (Hk entity arrays (or_introl eq_refl))) as Hs.
    destruct (dump_set entity arrays folder mode st fs) as [fs1 [s1 |]]; simpl in *.
    + rewrite IH by (intros e a Hin; apply (Hk e a); right; exact Hin). exact Hs.
    + exact Hs.
Qed.

End DumpOutput.

Lemma dump_touches_only_its_tables_witness :
  (@dump _ _ by_id ones_reader stats_only tt "out" true
     {["out/notes.txt" := [["keep"]]]}).1 !! "out/notes.txt"
  = ({["out/notes.txt" := [["keep"]]]} : Files) !! "out/notes.txt".
Proof.
  apply (@dump_touches_only_its_tables _ _ by_id ones_reader stats_only "out" true
           tt {["out/notes.txt" := [["keep"]]]} "out/notes.txt").
  intros entity arrays [Heq | []]. injection Heq as <- <-. discriminate.
Defined.

(** ** RomMap.__init__: the array sets *)

Lemma filter_split_perm {A : Type} (p q : A -> bool) (l : list A) :
  (forall x, In x l -> p x && q x = false) ->
  Permutation (List.filter p l ++ List.filter q l)
              (List.filter (fun x => p x || q x) l).
Proof.
  induction l as [| x l IH]; intros Hd; simpl; [constructor |].
  assert (IH' := IH (fun y Hy => Hd y (or_intror Hy))).
  pose proof (Hd x (or_introl eq_refl)) as Hx.
  destruct (p x) eqn:Hp, (q x) eqn:Hq; simpl in *; try discriminate.
  - now constructor.
  - rewrite <- Permutation_middle. now constructor.
  - exact IH'.
Qed.

Lemma filter_all {A : Type} (p : A -> bool) (l : list A) :
  (forall x, In x l -> p x = true) -> List.filter p l = l.
Proof.
  induction l as [| x l IH]; intros Hp; simpl; [reflexivity |].
  rewrite (Hp x (or_introl eq_refl)). f_equal. apply IH. intros y Hy.
  apply Hp. now right.
Qed.

Lemma filter_none {A : Type} (l : list A) : List.filter (fun _ => false) l = [].
Proof. induction l; simpl; auto. Qed.

Lemma concat_sets_perm (names : list string) (arrays : list ArrayDef) :
  List.NoDup names ->
  Permutation (concat (map snd (arraysets_in names arrays)))
              (List.filter (fun a => existsb (String.eqb (aset a)) names) arrays).
Proof.
  induction 1 as [| s names Hs Hnd IH]; simpl.
  - now rewrite filter_none.
  - rewrite IH. apply filter_split_perm.
    intros a _. destruct (String.eqb (aset a) s) eqn:Ha; [| reflexivity].
    apply String.eqb_eq in Ha. simpl.
    destruct (existsb (String.eqb (aset a)) names) eqn:He; [| reflexivity].
    apply existsb_eqb_In in He. congruence.
Qed.

(** X13. The array sets partition the arrays: for any order in which the
    set names are visited, every set is non-empty and holds exactly the
    arrays that name it, in their order, so each array is in one set only
    and the sets together hold every array once. *)
Theorem arraysets_partition (names : list string) (arrays : list ArrayDef) :
  List.NoDup names ->
  (forall s, In s names <-> In s (map aset arrays)) ->
  map fst (arraysets_in names arrays) = names
  /\ (forall s l, In (s, l) (arraysets_in names arrays) ->
        l <> [] /\ forall a, In a l <-> In a arrays /\ aset a = s)
  /\ Permutation (concat (map snd (arraysets_in names arrays))) arrays.
Proof.
  intros Hnd Hcover. split; [| split].
  - unfold arraysets_in. rewrite map_map. simpl. apply map_id.
  - intros s l Hin. unfold arraysets_in in Hin. apply in_map_iff in Hin.
    destruct Hin as [s' [Heq Hs']]. injection Heq as -> <-.
    assert (Hmem : forall a, In a (List.filter (fun a => String.eqb (aset a) s) arrays)
                     <-> In a arrays /\ aset a = s).
    { intros a. rewrite filter_In, String.eqb_eq. tauto. }
    split; [| exact Hmem].
    apply Hcover, in_map_iff in Hs'. destruct Hs' as [a [Ha Hin]].
    intros Hnil. assert (Hina := proj2 (Hmem a) (conj Hin Ha)).
    rewrite Hnil in Hina. destruct Hina.
  - rewrite (concat_sets_perm names arrays Hnd).
    rewrite filter_all; [reflexivity |].
    intros a Ha. apply existsb_eqb_In, Hcover. now apply in_map.
Qed.

Lemma arraysets_partition_witness :
  map fst (arraysets_in ["monsters"; "items"]
             [stats_array 2; mkArrayDef "prices" "items" 0 4 16 monster;
              vitals_array 2])
  = ["monsters"; "items"]
  /\ (forall s l,
        In (s, l) (arraysets_in ["monsters"; "items"]
                     [stats_array 2; mkArrayDef "prices" "items" 0 4 16 monster;
                      vitals_array 2]) ->
        l <> [] /\ forall a, In a l
                     <-> In a [stats_array 2;
                               mkArrayDef "prices" "items" 0 4 16 monster;
                               vitals_array 2] /\ aset a = s)
  /\ Permutation
       (concat (map snd (arraysets_in ["monsters"; "items"]
                           [stats_array 2;
                            mkArrayDef "prices" "items" 0 4 16 monster;
                            vitals_array 2])))
       [stats_array 2; mkArrayDef "prices" "items" 0 4 16 monster; vitals_array 2].
Proof.
  apply (arraysets_partition ["monsters"; "items"]
           [stats_array 2; mkArrayDef "prices" "items" 0 4 16 monster;
            vitals_array 2]).
  - repeat constructor; simpl; intuition discriminate.
  - intros s. simpl. intuition.
Defined.

(** ** hexify *)

Lemma length_append (s1 s2 : string) :
  String.length (s1 +:+ s2) = (String.length s1 + String.length s2)%nat.
Proof. induction s1 as [| c s1 IH]; simpl; [reflexivity | now rewrite IH]. Qed.

Lemma digit_of_hex_char (upper : bool) (d : Z) :
  0 <= d < 16 -> digit_of (hex_char upper d) = Some d.
Proof.
  intros Hd.
  assert (d = 0 \/ d = 1 \/ d = 2 \/ d = 3 \/ d = 4 \/ d = 5 \/ d = 6 \/ d = 7
          \/ d = 8 \/ d = 9 \/ d = 10 \/ d = 11 \/ d = 12 \/ d = 13 \/ d = 14
          \/ d = 15) as Hcases by lia.
  repeat (destruct Hcases as [-> | Hcases]; [destruct upper; reflexivity |]).
  subst d. destruct upper; reflexivity.
Qed.

Lemma hex_go_spec (upper : bool) (fuel : nat) (n : Z) (acc : string) :
  0 <= n < 16 ^ Z.of_nat (S fuel) ->
  exists k : nat,
    (1 <= k)%nat
    /\ String.length (hex_go (S fuel) upper n acc) = (k + String.length acc)%nat
    /\ (forall a, digits_go 16 (hex_go (S fuel) upper n acc) a
                  = digits_go 16 acc (a * 16 ^ Z.of_nat k + n))
    /\ (k = 1%nat \/ 16 ^ (Z.of_nat k - 1) <= n).
Proof.
  revert n acc. induction fuel as [| fuel IH]; intros n acc Hn.
  - exists 1%nat. change (16 ^ Z.of_nat 1) with 16 in *.
    assert (Hlt : (n <? 16) = true) by (apply Z.ltb_lt; lia).
    simpl. rewrite Hlt. split; [lia |]. split; [reflexivity |].
    split; [| now left].
    intros a. simpl. rewrite Z.mod_small by lia.
    rewrite digit_of_hex_char by lia. rewrite Hlt. f_equal. lia.
  - change (hex_go (S (S fuel)) upper n acc)
      with (if n <? 16 then String (hex_char upper (n mod 16)) acc
            else hex_go (S fuel) upper (n / 16)
                   (String (hex_char upper (n mod 16)) acc)).
    destruct (n <? 16) eqn:Hlt.
    + apply Z.ltb_lt in Hlt. exists 1%nat. split; [lia |].
      split; [reflexivity |]. split; [| now left].
      intros a. simpl. rewrite Z.mod_small by lia.
      rewrite digit_of_hex_char by lia.
      assert (Hlt' : (n <? 16) = true) by (apply Z.ltb_lt; lia).
      rewrite Hlt'. f_equal. lia.
    + apply Z.ltb_ge in Hlt.
      assert (Hdiv : 0 <= n / 16 < 16 ^ Z.of_nat (S fuel)).
      { split; [apply Z.div_pos; lia |].
        apply Z.div_lt_upper_bound; [lia |].
        rewrite (Nat2Z.inj_succ (S fuel)), Z.pow_succ_r in Hn by lia. lia. }
      destruct (IH (n / 16) (String (hex_char upper (n mod 16)) acc) Hdiv)
        as [k [Hk [Hlen [Hval Hlow]]]].
      exists (S k). split; [lia |]. split; [rewrite Hlen; simpl; lia |].
      assert (Hmod : 0 <= n mod 16 < 16) by (apply Z.mod_pos_bound; lia).
      split.
      * intros a. rewrite Hval. simpl.
        rewrite digit_of_hex_char by lia.
        assert (Hm : (n mod 16 <? 16) = true) by (apply Z.ltb_lt; lia).
        rewrite Hm. f_equal.
        rewrite (Nat2Z.inj_succ k), Z.pow_succ_r by lia.
        pose proof (Z.div_mod n 16). lia.
      * right. replace (Z.of_nat (S k) - 1) with (Z.of_nat k) by lia.
        destruct Hlow as [-> | Hlow]; [change (16 ^ Z.of_nat 1) with 16; lia |].
        replace (Z.of_nat k) with (Z.succ (Z.of_nat k - 1)) by lia.
        rewrite Z.pow_succ_r by lia.
        pose proof (Z.div_mod n 16). lia.
Qed.

Lemma hex_digits_spec (upper : bool) (n : Z) :
  0 <= n ->
  exists k : nat,
    (1 <= k)%nat
    /\ String.length (hex_digits upper n) = k
    /\ (forall a, digits_go 16 (hex_digits upper n) a
                  = Some (a * 16 ^ Z.of_nat k + n))
    /\ (k = 1%nat \/ 16 ^ (Z.of_nat k - 1) <= n).
Proof.
  intros Hn. unfold hex_digits.
  assert (Hfuel : 0 <= n < 16 ^ Z.of_nat (S (Z.to_nat (Z.log2 n)))).
  { split; [exact Hn |].
    destruct (Z.eq_dec n 0) as [-> | Hnz]; [reflexivity |].
    pose proof (Z.log2_nonneg n) as Hl.
    rewrite Nat2Z.inj_succ, Z2Nat.id by lia.
    apply Z.lt_le_trans with (2 ^ Z.succ (Z.log2 n)).
    - apply Z.log2_spec. lia.
    - apply Z.pow_le_mono_l. lia. }
  destruct (hex_go_spec upper _ n "" Hfuel) as [k [Hk [Hlen [Hval Hlow]]]].
  exists k. split; [exact Hk |]. split; [rewrite Hlen; simpl; lia |].
  split; [| exact Hlow]. intros a. now rewrite Hval.
Qed.

Lemma digits_go_zeros (m : nat) (s : string) :
  digits_go 16 (zeros m +:+ s) 0 = digits_go 16 s 0.
Proof. induction m as [| m IH]; simpl; [reflexivity | exact IH]. Qed.

Lemma length_zeros (m : nat) : String.length (zeros m) = m.
Proof. induction m as [| m IH]; simpl; [reflexivity | now rewrite IH]. Qed.

Lemma digits_nonempty (s : string) :
  (1 <= String.length s)%nat -> digits 16 s = digits_go 16 s 0.
Proof. destruct s; simpl; [lia | reflexivity]. Qed.

Lemma numbytes_ceil8 (length : Z) :
  (if negb (length mod 8 =? 0) then length / 8 + 1 else length / 8)
  = ceil8 length.
Proof.
  unfold ceil8. pose proof (Z.div_mod length 8 ltac:(lia)) as Hdm.
  pose proof (Z.mod_pos_bound length 8 ltac:(lia)) as Hb.
  destruct (length mod 8 =? 0) eqn:Hm; simpl.
  - apply Z.eqb_eq in Hm.
    apply Z.div_unique with 7; [left; lia | lia].
  - apply Z.eqb_neq in Hm.
    apply Z.div_unique with (length mod 8 - 1); [left; lia | lia].
Qed.

Lemma upper_hex_char_digit (d : Z) :
  0 <= d < 16 -> upper_hex_char (hex_char true d) = true.
Proof.
  intros Hd.
  assert (d = 0 \/ d = 1 \/ d = 2 \/ d = 3 \/ d = 4 \/ d = 5 \/ d = 6 \/ d = 7
          \/ d = 8 \/ d = 9 \/ d = 10 \/ d = 11 \/ d = 12 \/ d = 13 \/ d = 14
          \/ d = 15) as Hcases by lia.
  repeat (destruct Hcases as [-> | Hcases]; [reflexivity |]).
  subst d. reflexivity.
Qed.

Lemma all_chars_app (p : ascii -> bool) (s1 s2 : string) :
  all_chars p (s1 +:+ s2) = all_chars p s1 && all_chars p s2.
Proof.
  induction s1 as [| c s1 IH]; simpl; [reflexivity |].
  rewrite IH. apply andb_assoc.
Qed.

Lemma upper_hex_zeros (m : nat) : all_chars upper_hex_char (zeros m) = true.
Proof. induction m as [| m IH]; simpl; [reflexivity | exact IH]. Qed.

Lemma upper_hex_go (fuel : nat) (n : Z) (acc : string) :
  all_chars upper_hex_char acc = true ->
  all_chars upper_hex_char (hex_go fuel true n acc) = true.
Proof.
  revert n acc. induction fuel as [| fuel IH]; intros n acc Hacc; [exact Hacc |].
  assert (Hd : all_chars upper_hex_char (String (hex_char true (n mod 16)) acc)
               = true).
  { cbn [all_chars]. rewrite Hacc, upper_hex_char_digit; [reflexivity |].
    apply Z.mod_pos_bound. lia. }
  cbn [hex_go]. destruct (n <? 16); [exact Hd |]. apply IH, Hd.
Qed.

(** X14. [hexify] of a natural number writes "0x" and digits that are all
    among [0]-[9] and the upper-case [A]-[F], whose value is the number, at
    least two digits per byte of the given bit length, and exactly that
    many when the number fits in those bytes. *)
Theorem hexify_digits (i length : Z) :
  0 <= i -> 0 <= length ->
  exists ds : string,
    hexify i (Some length) = Ok ("0x" +:+ ds)
    /\ all_chars upper_hex_char ds = true
    /\ digits 16 ds = Some i
    /\ 2 * ceil8 length <= Z.of_nat (String.length ds)
    /\ (0 < length -> i < 2 ^ (8 * ceil8 length) ->
        Z.of_nat (String.length ds) = 2 * ceil8 length).
Proof.
  intros Hi Hlen. unfold hexify. rewrite numbytes_ceil8.
  assert (Hc : 0 <= ceil8 length)
    by (unfold ceil8; apply Z.div_pos; lia).
  assert (Hw : (ceil8 length * 2 <? 0) = false) by (apply Z.ltb_ge; lia).
  rewrite Hw. unfold format_0X.
  assert (Hneg : (i <? 0) = false) by (apply Z.ltb_ge; lia).
  rewrite Hneg.
  destruct (hex_digits_spec true i Hi) as [k [Hk [Hklen [Hval Hlow]]]].
  exists (zfill (ceil8 length * 2) (hex_digits true i)).
  split; [reflexivity |].
  assert (Hzl : String.length (zfill (ceil8 length * 2) (hex_digits true i))
                = (Z.to_nat (ceil8 length * 2 - Z.of_nat k) + k)%nat).
  { unfold zfill. now rewrite length_append, length_zeros, Hklen. }
  split; [| split; [| split]].
  - unfold zfill. rewrite all_chars_app, upper_hex_zeros. simpl.
    unfold hex_digits. now apply upper_hex_go.
  - rewrite digits_nonempty by lia.
    unfold zfill. rewrite digits_go_zeros, Hval. f_equal; lia.
  - rewrite Hzl. lia.
  - intros Hpos Hfit. rewrite Hzl.
    assert (Hc1 : 1 <= ceil8 length).
    { unfold ceil8. apply Z.div_le_lower_bound; lia. }
    assert (Hkw : Z.of_nat k <= ceil8 length * 2).
    { destruct Hlow as [-> | Hlow]; [lia |].
      replace (8 * ceil8 length) with (4 * (ceil8 length * 2)) in Hfit by lia.
      rewrite Z.pow_mul_r in Hfit by lia. change (2 ^ 4) with 16 in Hfit.
      assert (Hlt : 16 ^ (Z.of_nat k - 1) < 16 ^ (ceil8 length * 2)) by lia.
      apply Z.pow_lt_mono_r_iff in Hlt; lia. }
    lia.
Qed.

Lemma hexify_digits_witness :
  exists ds : string,
    hexify 200 (Some 12) = Ok ("0x" +:+ ds)
    /\ all_chars upper_hex_char ds = true
    /\ digits 16 ds = Some 200
    /\ 2 * ceil8 12 <= Z.of_nat (String.length ds)
    /\ (0 < 12 -> 200 < 2 ^ (8 * ceil8 12) ->
        Z.of_nat (String.length ds) = 2 * ceil8 12).
Proof. apply (hexify_digits 200 12); lia. Defined.

(** ** Struct.to_od *)

Lemma vdict_set_keys (k : string) (v : value) (d : list (string * value)) :
  map fst (vdict_set k v d)
  = if existsb (String.eqb k) (map fst d) then map fst d else map fst d ++ [k].
Proof.
  induction d as [| [k' v'] d IH]; simpl; [reflexivity |].
  rewrite (String.eqb_sym k k').
  destruct (String.eqb k' k) eqn:Hk; simpl.
  - apply String.eqb_eq in Hk. now subst.
  - rewrite IH. now destruct (existsb (String.eqb k) (map fst d)).
Qed.

(** Assignments to a dictionary keep its first key, add no key twice and
    add only assigned keys. *)
Lemma vdict_fold_keys (self : Struct) (pairs : list (string * string))
    (d : list (string * value)) :
  List.NoDup (map fst d) ->
  let out := fold_left (fun out fl => vdict_set fl.2 (od_value self fl.1) out)
                       pairs d in
  List.NoDup (map fst out)
  /\ (forall k0, head (map fst d) = Some k0 -> head (map fst out) = Some k0)
  /\ (forall k, In k (map fst out) -> In k (map fst d) \/ In k (map snd pairs)).
Proof.
  revert d. induction pairs as [| [i l] pairs IH]; intros d Hnd; simpl.
  - split; [exact Hnd |]. split; auto.
  - set (d1 := vdict_set l (od_value self i) d).
    assert (Hk1 : map fst d1
                  = if existsb (String.eqb l) (map fst d) then map fst d
                    else map fst d ++ [l]) by apply vdict_set_keys.
    assert (Hnd1 : List.NoDup (map fst d1)).
    { rewrite Hk1. destruct (existsb (String.eqb l) (map fst d)) eqn:He;
        [exact Hnd |].
      apply NoDup_ListNoDup, NoDup_app. repeat split.
      - now apply NoDup_ListNoDup.
      - intros x Hx Hx'. apply list_elem_of_In in Hx.
        apply list_elem_of_In in Hx'. destruct Hx' as [<- | []].
        apply existsb_eqb_In in Hx. congruence.
      - apply NoDup_ListNoDup. repeat constructor. intros []. }
    destruct (IH d1 Hnd1) as [Hnd' [Hhead Hin]].
    split; [exact Hnd' |]. split.
    + intros k0 Hk0. apply Hhead. rewrite Hk1.
      destruct (existsb (String.eqb l) (map fst d)); [exact Hk0 |].
      destruct (map fst d); [discriminate | exact Hk0].
    + intros k Hk. destruct (Hin k Hk) as [Hd1 | Hp]; [| now right; right].
      rewrite Hk1 in Hd1.
      destruct (existsb (String.eqb l) (map fst d)); [now left |].
      apply in_app_or in Hd1. destruct Hd1 as [Hd | [<- | []]]; [now left |].
      right. now left.
Qed.

Lemma vdict_set_In (k : string) (v : value) (d : list (string * value))
    (k' : string) (x : value) :
  In (k', x) (vdict_set k v d) -> (k', x) = (k, v) \/ In (k', x) d.
Proof.
  induction d as [| [k1 v1] d IH]; simpl.
  - intros [He | []]. now left.
  - destruct (String.eqb k1 k).
    + intros [He | Hin]; [now left | right; now right].
    + intros [He | Hin]; [right; now left |].
      destruct (IH Hin) as [? | ?]; [now left | right; now right].
Qed.

(** Every entry of the dictionary was there before the assignments or was
    assigned, with the value of line 259; a first entry whose key is not
    assigned stays first, with its value. *)
Lemma vdict_fold_entries (self : Struct) (pairs : list (string * string))
    (d : list (string * value)) :
  let out := fold_left (fun out fl => vdict_set fl.2 (od_value self fl.1) out)
                       pairs d in
  (forall k x, In (k, x) out ->
     In (k, x) d \/ exists i, In (i, k) pairs /\ x = od_value self i)
  /\ (forall k0 x0, head d = Some (k0, x0) -> ~ In k0 (map snd pairs) ->
       head out = Some (k0, x0)).
Proof.
  revert d. induction pairs as [| [i l] pairs IH]; intros d; simpl.
  - split; [auto | auto].
  - destruct (IH (vdict_set l (od_value self i) d)) as [Hin Hhead]. split.
    + intros k x Hkx. destruct (Hin k x Hkx) as [Hd | [j [Hj Hx]]].
      * apply vdict_set_In in Hd. destruct Hd as [He | Hd]; [| now left].
        injection He as -> ->. right. exists i. split; [now left | reflexivity].
      * right. exists j. split; [now right | exact Hx].
    + intros k0 x0 Hd Hnot. apply Hhead; [| tauto].
      destruct d as [| [k1 v1] d]; [discriminate |].
      simpl in Hd. injection Hd as -> ->. simpl.
      destruct (String.eqb k0 l) eqn:Hk; [| reflexivity].
      apply String.eqb_eq in Hk. subst l. tauto.
Qed.

Lemma find_isname_first (pre post : list Field) (name : Field) :
  isname name = true ->
  Forall (fun f => isname f = false) pre ->
  List.find isname (pre ++ name :: post) = Some name.
Proof.
  intros Hn Hpre. induction Hpre as [| f pre Hf _ IH]; simpl.
  - now rewrite Hn.
  - now rewrite Hf.
Qed.

(** X15. [to_od] raises [StopIteration] for a definition without a field
    labelled "Name"; otherwise it returns a dictionary whose first key is
    "Name", with the value of the first field so labelled, and whose keys
    are labels of the definition's fields, none twice.  The value under a
    label is the value of a field with that label: the attribute of the
    data record under the field's id, else the attribute of the calculated
    record under the id without its leading asterisks, else the empty
    string; so a field without a value never makes it raise. *)
Theorem to_od_name_first (self : Struct) :
  let all := fields (definition self) ++ pointers (definition self) in
  let value_of := fun fid : string =>
        match getattr (data self) fid with
        | Ok x => x
        | Raise _ =>
            match getattr (calculated self) (lstrip_star fid) with
            | Ok y => y
            | Raise _ => VStr ""
            end
        end in
  (Forall (fun f => isname f = false) all -> to_od self = Raise StopIteration)
  /\ (Exists (fun f => isname f = true) all ->
      exists name v rest,
        List.find isname all = Some name
        /\ to_od self = Ok (("Name", v) :: rest)
        /\ v = value_of (fid name)
        /\ List.NoDup (map fst (("Name", v) :: rest))
        /\ (forall k, In k (map fst (("Name", v) :: rest)) ->
              exists f, In f all /\ flabel f = k)
        /\ (forall k x, In (k, x) rest ->
              exists f, In f all /\ flabel f = k /\ x = value_of (fid f))).
Proof.
  intros all value_of.
  assert (Hval : forall i, od_value self i = value_of i) by reflexivity.
  split.
  - intros Hnone. unfold to_od.
    now rewrite (output_fields_no_name (definition self) Hnone).
  - intros Hex.
    assert (Hsplit : exists pre name post,
               all = pre ++ name :: post /\ isname name = true
               /\ Forall (fun f => isname f = false) pre).
    { clear - Hex. induction Hex as [f l Hf | f l _ IH].
      - exists [], f, l. repeat split; [exact Hf | constructor].
      - destruct (isname f) eqn:Hf.
        + exists [], f, l. repeat split; [exact Hf | constructor].
        + destruct IH as [pre [name [post [-> [Hn Hpre]]]]].
          exists (f :: pre), name, post. repeat split; [exact Hn |].
          now constructor. }
    destruct Hsplit as [pre [name [post [Hall [Hn Hpre]]]]].
    assert (Hfind : List.find isname all = Some name)
      by (rewrite Hall; now apply find_isname_first).
    clearbody value_of. unfold all in *. clear all.
    assert (Hlabel : flabel name = "Name")
      by (unfold isname in Hn; now apply String.eqb_eq in Hn).
    assert (Hout : _output_fields (definition self)
              = Ok ((fid name, "Name")
                    :: map id_label
                         (List.filter notname (fields (definition self))
                          ++ List.filter notname (pointers (definition self))))).
    { unfold _output_fields. cbv zeta. rewrite Hall.
      rewrite (filter_isname_split pre post name Hn Hpre). simpl.
      unfold id_label at 1. now rewrite Hlabel. }
    unfold to_od. rewrite Hout. simpl.
    set (others := List.filter notname (fields (definition self))
                   ++ List.filter notname (pointers (definition self))).
    set (pairs := map id_label others).
    set (d0 := [("Name", od_value self (fid name))]).
    assert (Hothers : forall f, In f others ->
              In f (fields (definition self) ++ pointers (definition self))
              /\ flabel f <> "Name").
    { intros f Hf. unfold others in Hf. apply in_app_or in Hf.
      assert (Hnn : forall l, In f (List.filter notname l) ->
                In f l /\ flabel f <> "Name").
      { intros l Hl. apply filter_In in Hl. destruct Hl as [Hl Hnot].
        split; [exact Hl |]. intros Hlab. unfold notname, isname in Hnot.
        rewrite Hlab in Hnot. discriminate. }
      destruct Hf as [Hf | Hf]; apply Hnn in Hf; destruct Hf as [Hf Hlab];
        (split; [apply in_or_app; auto | exact Hlab]). }
    destruct (vdict_fold_keys self pairs d0) as [Hnd [_ Hin]].
    { repeat constructor. intros []. }
    destruct (vdict_fold_entries self pairs d0) as [Hent Hhead].
    specialize (Hhead "Name" (od_value self (fid name)) eq_refl).
    assert (Hfresh : ~ In "Name" (map snd pairs)).
    { unfold pairs. rewrite map_map. intros Hc. apply in_map_iff in Hc.
      destruct Hc as [f [Hlab Hf]]. apply Hothers in Hf. simpl in Hlab. tauto. }
    specialize (Hhead Hfresh).
    destruct (fold_left _ pairs d0) as [| [k v] rest] eqn:Hfold; [discriminate |].
    simpl in Hhead. injection Hhead as -> ->.
    exists name, (od_value self (fid name)), rest.
    split; [exact Hfind |]. split; [reflexivity |]. split; [apply Hval |].
    split; [exact Hnd |]. split.
    + intros k Hk. destruct (Hin k Hk) as [[<- | []] | Hp].
      * exists name. split; [| exact Hlabel]. rewrite Hall. apply in_elt.
      * unfold pairs in Hp. rewrite map_map in Hp. apply in_map_iff in Hp.
        destruct Hp as [f [Hf Hinf]]. exists f. split; [| exact Hf].
        now apply Hothers.
    + intros k x Hkx.
      destruct (Hent k x (or_intror Hkx)) as [[He | []] | [i [Hi Hx]]].
      * injection He as <- <-. exists name. split; [| split].
        -- rewrite Hall. apply in_elt.
        -- exact Hlabel.
        -- apply Hval.
      * unfold pairs in Hi. apply in_map_iff in Hi.
        destruct Hi as [f [Hf Hinf]]. unfold id_label in Hf.
        injection Hf as <- <-. exists f. split; [| split].
        -- now apply Hothers.
        -- reflexivity.
        -- rewrite Hx. apply Hval.
Qed.

(** ** romtool.detect *)

Lemma prefix_app (h x : string) : String.prefix h (h +:+ x) = true.
Proof.
  induction h as [| c h IH]; simpl; [now destruct x |].
  destruct (ascii_dec c c); [exact IH | congruence].
Qed.

Lemma lstrip_ws_word (h x : string) :
  all_chars nonspace h = true -> h <> "" -> lstrip_ws (h +:+ x) = h +:+ x.
Proof.
  destruct h as [| c h]; [congruence |]. simpl. intros Hc _.
  apply andb_true_iff in Hc. destruct Hc as [Hc _].
  unfold nonspace in Hc. apply negb_true_iff in Hc. now rewrite Hc.
Qed.

Lemma drop_word_app (h x : string) :
  all_chars nonspace h = true -> drop_word (h +:+ x) = drop_word x.
Proof.
  induction h as [| c h IH]; simpl; [reflexivity |]. intros Hc.
  apply andb_true_iff in Hc. destruct Hc as [Hc Hh].
  unfold nonspace in Hc. apply negb_true_iff in Hc. rewrite Hc. now apply IH.
Qed.

Lemma drop_word_blank (gap x : string) :
  all_chars isspace gap = true -> gap <> "" -> drop_word (gap +:+ x) = gap +:+ x.
Proof.
  destruct gap as [| c gap]; [congruence |]. simpl. intros Hc _.
  apply andb_true_iff in Hc. destruct Hc as [Hc _]. now rewrite Hc.
Qed.

Lemma lstrip_ws_app (gap x : string) :
  all_chars isspace gap = true -> lstrip_ws (gap +:+ x) = lstrip_ws x.
Proof.
  induction gap as [| c gap IH]; simpl; [reflexivity |]. intros Hc.
  apply andb_true_iff in Hc. destruct Hc as [Hc Hg]. rewrite Hc. now apply IH.
Qed.

Lemma rstrip_ws_blank (trail : string) :
  all_chars isspace trail = true -> rstrip_ws trail = "".
Proof.
  induction trail as [| c trail IH]; simpl; [reflexivity |]. intros Hc.
  apply andb_true_iff in Hc. destruct Hc as [Hc Ht].
  rewrite (IH Ht). now rewrite Hc.
Qed.

Lemma rstrip_ws_app (s trail : string) :
  all_chars isspace trail = true -> rstrip_ws (s +:+ trail) = rstrip_ws s.
Proof.
  intros Ht. induction s as [| c s IH]; simpl.
  - now apply rstrip_ws_blank.
  - now rewrite IH.
Qed.

(** X16. [detect] returns the map named on the first line of the hash
    database that starts with the ROM's hash: for a line made of the hash,
    blanks, a name without blanks at its ends, and trailing blanks such as
    the newline, the result is "specs/" followed by that name, whatever
    lines follow. *)
Theorem detect_first_match (pre post : list string)
    (romfile romhash gap body trail : string) (c : ascii) :
  romhash <> "" ->
  all_chars nonspace romhash = true ->
  gap <> "" ->
  all_chars isspace gap = true ->
  isspace c = false ->
  rstrip_ws (String c body) = String c body ->
  all_chars isspace trail = true ->
  Forall (fun line => String.prefix romhash line = false) pre ->
  detect (pre ++ (romhash +:+ gap +:+ String c body +:+ trail) :: post)
         romfile romhash
  = Detected ("specs/" +:+ String c body).
Proof.
  intros Hne Hhash Hgne Hgap Hc Hname Htrail Hpre. unfold detect.
  assert (Hfind : List.find (String.prefix romhash)
                    (pre ++ (romhash +:+ gap +:+ String c body +:+ trail) :: post)
                  = Some (romhash +:+ gap +:+ String c body +:+ trail)).
  { induction Hpre as [| l pre Hl _ IH]; simpl.
    - now rewrite prefix_app.
    - now rewrite Hl. }
  rewrite Hfind. unfold split1_second.
  rewrite (lstrip_ws_word _ _ Hhash Hne), (drop_word_app _ _ Hhash).
  rewrite (drop_word_blank _ _ Hgap Hgne), (lstrip_ws_app _ _ Hgap).
  simpl. rewrite Hc. unfold strip. simpl lstrip_ws. rewrite Hc.
  change (String c (body +:+ trail)) with (String c body +:+ trail).
  now rewrite (rstrip_ws_app _ _ Htrail), Hname.
Qed.

Lemma detect_first_match_witness :
  detect ["0123abcd  other map" +:+ newline;
          "89ef4567" +:+ "  " +:+ "Final Fantasy (US)" +:+ newline;
          "89ef4567 shadowed" +:+ newline]
         "ff.nes" "89ef4567"
  = Detected ("specs/" +:+ "Final Fantasy (US)").
Proof.
  apply (detect_first_match ["0123abcd  other map" +:+ newline]
           ["89ef4567 shadowed" +:+ newline]
           "ff.nes" "89ef4567" "  " "inal Fantasy (US)" newline "F").
  - discriminate.
  - reflexivity.
  - discriminate.
  - reflexivity.
  - reflexivity.
  - reflexivity.
  - reflexivity.
  - repeat constructor.
Defined.

(** X17. [detect] fails in two ways: with [RomDetectionError] when no line
    of the database starts with the hash, and with the uncaught
    [IndexError] of [split(...)[1]] when the first such line holds nothing
    but the hash and blanks. *)
Theorem detect_failures (pre post : list string)
    (romfile romhash trail : string) :
  romhash <> "" ->
  all_chars nonspace romhash = true ->
  all_chars isspace trail = true ->
  Forall (fun line => String.prefix romhash line = false) pre ->
  detect pre romfile romhash
  = RomDetectionError ("sha1 hash for " +:+ romfile +:+ " not in hashdb.")
  /\ detect (pre ++ (romhash +:+ trail) :: post) romfile romhash
     = Uncaught IndexError.
Proof.
  intros Hne Hhash Htrail Hpre. unfold detect. split.
  - assert (Hfind : List.find (String.prefix romhash) pre = None).
    { induction Hpre as [| l pre Hl _ IH]; simpl; [reflexivity |]. now rewrite Hl. }
    now rewrite Hfind.
  - assert (Hfind : List.find (String.prefix romhash)
                      (pre ++ (romhash +:+ trail) :: post)
                    = Some (romhash +:+ trail)).
    { induction Hpre as [| l pre Hl _ IH]; simpl.
      - now rewrite prefix_app.
      - now rewrite Hl. }
    rewrite Hfind. unfold split1_second.
    rewrite (lstrip_ws_word _ _ Hhash Hne), (drop_word_app _ _ Hhash).
    assert (Hrest : lstrip_ws (drop_word trail) = "").
    { clear - Htrail. destruct trail as [| c t]; [reflexivity |].
      simpl in *. apply andb_true_iff in Htrail. destruct Htrail as [Hc Ht].
      rewrite Hc. simpl. rewrite Hc.
      clear Hc. induction t as [| c' t IH]; simpl; [reflexivity |].
      simpl in Ht. apply andb_true_iff in Ht. destruct Ht as [Hc' Ht].
      rewrite Hc'. now apply IH. }
    now rewrite Hrest.
Qed.

Lemma detect_failures_witness :
  detect ["0123abcd  other map" +:+ newline] "ff.nes" "89ef4567"
  = RomDetectionError ("sha1 hash for " +:+ "ff.nes" +:+ " not in hashdb.")
  /\ detect (["0123abcd  other map" +:+ newline]
             ++ ("89ef4567" +:+ newline) :: ["89ef4567 later" +:+ newline])
            "ff.nes" "89ef4567"
     = Uncaught IndexError.
Proof.
  apply (detect_failures ["0123abcd  other map" +:+ newline]
           ["89ef4567 later" +:+ newline] "ff.nes" "89ef4567" newline).
  - discriminate.
  - reflexivity.
  - reflexivity.
  - repeat constructor.
Defined.
